(** * azure-openai-sample: the [Chat] assistant of src/chat.ts and the sample
    fact source of src/facts.ts

    The TypeScript code is embedded shallowly.  Everything outside the
    repository (the OpenAI client, the file system, the wall clock, the
    console) is an [Environment] over an abstract [World]; the code itself is
    written in a small state-and-exception monad, so that a rejected promise
    keeps the mutations made before it, as in JavaScript.

    Strings are byte strings.  Numbers that the code only counts or compares
    ([memory], HTTP status, time stamps) are integers, of either sign;
    numbers that are only passed through to the remote service
    ([temperature], [top_p]) are rationals. *)

From Stdlib Require Import ZArith QArith_base Ascii String.
From stdpp Require Import base option list gmap strings pretty.

Local Open Scope Z_scope.

(** ** JavaScript strings *)

Module Js.

Definition LF : string := String "010"%char "".

(** Truthiness of a string and of a number ([NaN] is not modelled). *)
Definition truthy (s : string) : bool :=
  match s with "" => false | String _ _ => true end.

Definition truthyNum (n : Z) : bool := negb (n =? 0).

(** [hay.includes(needle)] *)
Fixpoint includes (needle hay : string) : bool :=
  String.prefix needle hay ||
  match hay with
  | "" => false
  | String _ hay' => includes needle hay'
  end.

(** [toLowerCase] on the ASCII letters; other bytes are kept. *)
Definition lowerChar (c : ascii) : ascii :=
  let n := N_of_ascii c in
  if ((65 <=? n) && (n <=? 90))%N then ascii_of_N (n + 32) else c.

Fixpoint toLowerCase (s : string) : string :=
  match s with
  | "" => ""
  | String c s' => String (lowerChar c) (toLowerCase s')
  end.

(** [trim] for the ASCII white space and line terminators. *)
Fixpoint trimStart (s : string) : string :=
  match s with
  | "" => ""
  | String c s' => if Ascii.is_space c then trimStart s' else s
  end.

Definition trimEnd (s : string) : string :=
  String.rev (trimStart (String.rev s)).

Definition trim (s : string) : string := trimEnd (trimStart s).

(** Template interpolation of a possibly undefined string. *)
Definition interp (o : option string) : string := default "undefined" o.

(** What a rejected promise carries. *)
Inductive exn :=
| Error (message : string)
| TypeError (message : string)
| Rejection (reason : string).

End Js.

Import Js.

(** ** Results and the effect monad *)

Inductive result (A : Type) :=
| Ok (a : A)
| Throw (e : exn).
Arguments Ok {A} a.
Arguments Throw {A} e.

Definition Eff (S A : Type) : Type := S -> result A * S.

Definition ret {S A} (a : A) : Eff S A := fun s => (Ok a, s).

Definition throw {S A} (e : exn) : Eff S A := fun s => (Throw e, s).

Definition bind {S A B} (c : Eff S A) (k : A -> Eff S B) : Eff S B :=
  fun s =>
    match c s with
    | (Ok a, s') => k a s'
    | (Throw e, s') => (Throw e, s')
    end.

Definition modify {S} (f : S -> S) : Eff S unit := fun s => (Ok tt, f s).

Declare Scope eff_scope.
Delimit Scope eff_scope with eff.
Notation "x <- c ;; k" := (bind c (fun x => k))
  (at level 100, c at next level, right associativity) : eff_scope.
Notation "c ;;; k" := (bind c (fun _ => k))
  (at level 100, right associativity) : eff_scope.
Local Open Scope eff_scope.

(** ** Data of src/chat.ts *)

Inductive Sender := user | assistant.

Definition senderName (s : Sender) : string :=
  match s with user => "user" | assistant => "assistant" end.

Record Message := { sender : Sender; text : string }.

(** [CompletionOpts]: the request fields a caller may override.  A field is
    [None] when its key is absent; the keys the code does not look at are
    kept as they are in [o_others]. *)
Record CompletionOpts := {
  o_max_tokens : option Z;
  o_temperature : option Q;
  o_top_p : option Q;
  o_others : list (string * string)
}.

Definition noOpts : CompletionOpts :=
  {| o_max_tokens := None; o_temperature := None; o_top_p := None;
     o_others := [] |}.

Record CreateCompletionRequest := {
  max_tokens : option Z;
  temperature : option Q;
  top_p : option Q;
  others : list (string * string);
  prompt : string;
  req_model : option string;
  stop : list string
}.

Record ClientOpts := {
  header_api_key : option string;
  param_api_version : string
}.

Record Choice := { choice_text : option string }.

Record AxiosResponse := {
  status : Z;
  statusText : string;
  choices : list Choice
}.

(** The calls that leave the process, in the order they are made. *)
Inductive Event :=
| EvCreateCompletion (basePath : string) (req : CreateCompletionRequest)
    (o : ClientOpts)
| EvEnrich (arg : string).

(** ** The environment *)

Class Environment (World : Type) := {
  (** [Date.now()], in milliseconds *)
  clock : World -> Z;
  (** [OpenAIApi.createCompletion] of the client built on a base path *)
  createCompletion :
    string -> CreateCompletionRequest -> ClientOpts -> Eff World AxiosResponse;
  (** [readFile(path, encoding)] of fs/promises *)
  readFile : string -> string -> Eff World string;
  (** [console.log] *)
  consoleLog : string -> World -> World
}.

(** ** node-cache, as [Chat] uses it *)

Module NodeCache.

(** Modelled from the spec: the node-cache package is not among the sources.
    The history cache maps a scope to a list of messages, and an entry
    expires a fixed time to live after it was set.  As in the package, an
    entry keeps its value [v] and the time [t], in milliseconds, after which
    it is gone ([0]: never), and values are copied in and out, so that no
    list is shared with the cache. *)
Record entry := { v : list Message; t : Z }.

(** [new NodeCache({ stdTTL: 60 * 30 })], in seconds *)
Definition stdTTL : Z := 60 * 30.

Definition expired (now : Z) (e : entry) : bool :=
  negb (t e =? 0) && (t e <? now).

Definition livetime (now : Z) : Z :=
  if stdTTL =? 0 then 0 else now + stdTTL * 1000.

(** Modelled from the spec: [cache.get(key)] is [undefined] for a key that
    is missing or past its time; the latter is deleted on the way. *)
Definition get (now : Z) (key : string) (data : gmap string entry)
  : option (list Message) * gmap string entry :=
  match data !! key with
  | Some e => if expired now e then (None, delete key data)
              else (Some (v e), data)
  | None => (None, data)
  end.

(** Modelled from the spec: [cache.set(key, value)] stores the value and
    gives it a fresh time to live. *)
Definition set (now : Z) (key : string) (value : list Message)
    (data : gmap string entry) : gmap string entry :=
  <[key := {| v := value; t := livetime now |}]> data.

End NodeCache.

Section Assistant.

Context {World : Type} `{Environment World}.

Definition Enrich : Type := string -> Eff World string.

Record ChatConf := {
  conf_url : string;
  conf_model : string;
  conf_apiKey : string;
  conf_role : option string;
  conf_apiVer : option string;
  conf_memory : option Z;
  conf_enrich : option Enrich
}.

(** The fields of a [Chat] object; its cache is part of [State]. *)
Record Chat := {
  role : string;
  apiVer : string;
  memory : Z;
  model : option string;
  apiKey : option string;
  basePath : string;
  enrich : option Enrich
}.

Record State := {
  cache : gmap string NodeCache.entry;
  world : World;
  trace : list Event
}.

(** [if (conf.x) this.x = conf.x] over a field initialised to [dflt]. *)
Definition orKeep {A} (truthyA : A -> bool) (o : option A) (dflt : A) : A :=
  match o with
  | Some x => if truthyA x then x else dflt
  | None => dflt
  end.

Definition orUndefined (s : string) : option string :=
  if truthy s then Some s else None.

Definition constructor (conf : ChatConf) : Chat :=
  let model := orUndefined (conf_model conf) in
  {| role := orKeep truthy (conf_role conf) "AI assistant";
     apiVer := orKeep truthy (conf_apiVer conf) "2022-12-01";
     memory := orKeep truthyNum (conf_memory conf) 10;
     model := model;
     apiKey := orUndefined (conf_apiKey conf);
     basePath := conf_url conf +:+ "/openai/deployments/" +:+ interp model;
     enrich := conf_enrich conf |}.

(** The cache of a fresh [Chat]. *)
Definition initState (w : World) : State :=
  {| cache := ∅; world := w; trace := [] |}.

(** *** Primitive effects on [State] *)

Definition cacheGet (key : string) : Eff State (option (list Message)) :=
  fun st =>
    let '(r, data) := NodeCache.get (clock (world st)) key (cache st) in
    (Ok r, {| cache := data; world := world st; trace := trace st |}).

Definition cacheSet (key : string) (value : list Message) : Eff State unit :=
  modify (fun st =>
    {| cache := NodeCache.set (clock (world st)) key value (cache st);
       world := world st; trace := trace st |}).

(** An awaited call into the environment, recorded in the trace. *)
Definition external {A} (ev : Event) (c : Eff World A) : Eff State A :=
  fun st =>
    let '(r, w) := c (world st) in
    (r, {| cache := cache st; world := w; trace := trace st ++ [ev] |}).

(** *** [Chat.setMessage] *)

Definition setMessage (ch : Chat) (scope : string) (sender : Sender)
    (text : string) : Eff State (list Message) :=
  let message := {| sender := sender; text := text |} in
  if negb (truthy scope) then ret [message]
  else
    cached <- cacheGet scope ;;
    let messages := default [] cached in
    let messages := messages ++ [message] in
    let messages :=
      if memory ch <? Z.of_nat (length messages) then tail messages
      else messages in
    cacheSet scope messages ;;;
    ret messages.

(** *** [Chat.clientOpts] *)

Definition clientOpts (ch : Chat) : ClientOpts :=
  {| header_api_key := apiKey ch; param_api_version := apiVer ch |}.

Definition apiError (res : AxiosResponse) : exn :=
  Error ("OpenAI API error: " +:+ statusText res +:+ " (" +:+
         pretty (status res) +:+ ")").

(** [res.data.choices[0].text || ''] *)
Definition firstChoiceText (res : AxiosResponse) : Eff State string :=
  match choices res with
  | [] => throw (TypeError
            "Cannot read properties of undefined (reading 'text')")
  | c :: _ =>
      match choice_text c with
      | Some s => ret (if truthy s then s else "")
      | None => ret ""
      end
  end.

(** *** [Chat.extractSearchQuery] *)

Definition extractRequest (ch : Chat) (text : string)
  : CreateCompletionRequest :=
  {| max_tokens := Some 50;
     temperature := Some (2 # 10)%Q;
     top_p := None;
     others := [];
     prompt :=
       ("<|im_start|>system" +:+ LF +:+ "Search assistant" +:+ LF +:+
        "<|im_end|>" +:+ LF) +:+
       ("<|im_start|>user" +:+ LF +:+ "Extract search query from:" +:+ LF +:+
        text +:+ LF +:+ "<|im_end|>" +:+ LF) +:+
       ("<|im_start|>assistant" +:+ LF);
     req_model := model ch;
     stop := ["<|im_end|>"] |}.

Definition sorry : string := "I'm sorry, but".
Definition notValid : string := "is not a valid search query".

Definition extractSearchQuery (ch : Chat) (text : string)
  : Eff State string :=
  let req := extractRequest ch text in
  res <- external (EvCreateCompletion (basePath ch) req (clientOpts ch))
           (createCompletion (basePath ch) req (clientOpts ch)) ;;
  if negb (status res =? 200) then throw (apiError res)
  else
    answer <- firstChoiceText res ;;
    if includes sorry answer || includes notValid answer then ret ""
    else ret answer.

(** *** [Chat.buildPrompt] *)

Definition turn (m : Message) : string :=
  LF +:+ "<|im_start|>" +:+ senderName (sender m) +:+ LF +:+ text m +:+ LF +:+
  "<|im_end|>".

(** Lines 130-139: the text put together once the facts are known.  The
    statement [prompt + `\n<|im_end|>`] computes a string and drops it. *)
Definition promptText (role facts : string) (messages : list Message)
  : string :=
  let prompt := "<|im_start|>system" +:+ LF +:+ role in
  let prompt :=
    if truthy facts then prompt +:+ (LF +:+ LF +:+ "Facts:" +:+ LF +:+ trim facts)
    else prompt in
  let _ := prompt +:+ (LF +:+ "<|im_end|>") in
  let prompt := fold_left (fun p m => p +:+ turn m) messages prompt in
  prompt +:+ (LF +:+ "<|im_start|>assistant" +:+ LF).

Definition lastText (messages : list Message) : Eff State string :=
  match last messages with
  | Some m => ret (text m)
  | None => throw (TypeError
              "Cannot read properties of undefined (reading 'text')")
  end.

Definition buildPrompt (ch : Chat) (messages : list Message)
  : Eff State string :=
  text <- lastText messages ;;
  searchQuery <- extractSearchQuery ch text ;;
  facts <- match enrich ch with
           | Some f =>
               let arg := if truthy searchQuery then searchQuery else text in
               external (EvEnrich arg) (f arg)
           | None => ret ""
           end ;;
  ret (promptText (role ch) facts messages).

(** *** [Chat.ask] *)

Definition askRequest (ch : Chat) (opts : CompletionOpts) (prompt : string)
  : CreateCompletionRequest :=
  {| max_tokens := Some (default 500 (o_max_tokens opts));
     temperature := Some (default (7 # 10)%Q (o_temperature opts));
     top_p := Some (default (95 # 100)%Q (o_top_p opts));
     others := o_others opts;
     prompt := prompt;
     req_model := model ch;
     stop := ["<|im_end|>"] |}.

Definition ask (ch : Chat) (text dlg : string) (opts : CompletionOpts)
  : Eff State string :=
  messages <- setMessage ch dlg user text ;;
  prompt <- buildPrompt ch messages ;;
  let req := askRequest ch opts prompt in
  res <- external (EvCreateCompletion (basePath ch) req (clientOpts ch))
           (createCompletion (basePath ch) req (clientOpts ch)) ;;
  if negb (status res =? 200) then throw (apiError res)
  else
    answer <- firstChoiceText res ;;
    (if truthy answer then (setMessage ch dlg assistant answer ;;; ret tt)
     else ret tt) ;;;
    ret answer.

(** ** src/facts.ts *)

Definition kbPath : string := "./kb/marseoni.txt".

Definition getFacts : Enrich := fun text =>
  modify (consoleLog text) ;;;
  let t := toLowerCase text in
  if includes "food" t || includes "eat" t || includes "cuisine" t
  then readFile kbPath "utf8"
  else ret "".

End Assistant.

Arguments Enrich World : clear implicits.
Arguments ChatConf World : clear implicits.
Arguments Chat World : clear implicits.
Arguments State World : clear implicits.

(** ** A scripted world, to run the code on concrete inputs

    Each remote call consumes the next scripted reply and lets the given
    number of milliseconds pass. *)
Module Sim.

Record world := {
  now : Z;
  replies : list (Z * result AxiosResponse);
  files : list (string * string);
  console : list string
}.

Definition nextReply : Eff world AxiosResponse := fun w =>
  match replies w with
  | [] => (Throw (Rejection "ECONNREFUSED"), w)
  | (dt, r) :: rest =>
      (r, {| now := now w + dt; replies := rest; files := files w;
             console := console w |})
  end.

Fixpoint lookupFile (path : string) (fs : list (string * string))
  : option string :=
  match fs with
  | [] => None
  | (p, contents) :: fs' =>
      if String.eqb p path then Some contents else lookupFile path fs'
  end.

Definition read (path : string) : Eff world string := fun w =>
  match lookupFile path (files w) with
  | Some contents => (Ok contents, w)
  | None => (Throw (Error ("ENOENT: no such file or directory, open '" +:+
                             path +:+ "'")), w)
  end.

Definition log (s : string) (w : world) : world :=
  {| now := now w; replies := replies w; files := files w;
     console := console w ++ [s] |}.

#[global] Instance env : Environment world := {|
  clock := now;
  createCompletion := fun _ _ _ => nextReply;
  readFile := fun path _ => read path;
  consoleLog := log
|}.

Definition ok200 (s : string) : result AxiosResponse :=
  Ok {| status := 200; statusText := "OK";
        choices := [ {| choice_text := Some s |} ] |}.

Definition start (rs : list (Z * result AxiosResponse)) : world :=
  {| now := 1700000000000; replies := rs;
     files := [("./kb/marseoni.txt", "Marseoni is a cuisine of Mars.")];
     console := [] |}.

End Sim.

(** * Vocabulary of the specification *)

Section Vocabulary.

Context {World : Type} `{Environment World}.
Implicit Types (ch : Chat World) (st : State World).

(** The history kept under a scope, and the part of it that [get] still
    hands out at time [now]. *)
Definition stored (scope : string) (data : gmap string NodeCache.entry)
  : list Message :=
  match data !! scope with
  | Some e => NodeCache.v e
  | None => []
  end.

Definition retrievable (now : Z) (scope : string)
    (data : gmap string NodeCache.entry) : list Message :=
  default [] (fst (NodeCache.get now scope data)).

Definition history (scope : string) st : list Message :=
  stored scope (cache st).

(** The window [setMessage] keeps: one entry, the oldest, leaves when the
    list is longer than [size]. *)
Definition window (size : Z) (l : list Message) : list Message :=
  if size <? Z.of_nat (length l) then tail l else l.

Definition bounded (size : Z) (data : gmap string NodeCache.entry) : Prop :=
  ∀ k e, data !! k = Some e → Z.of_nat (length (NodeCache.v e)) ≤ size.

Definition withCache (data : gmap string NodeCache.entry) st
  : State World :=
  {| cache := data; world := world st; trace := trace st |}.

Definition withWorld (w : World) st : State World :=
  {| cache := cache st; world := w; trace := trace st |}.

(** The state in which an awaited call [ev] leaves the program when the
    environment moved to [w]. *)
Definition afterCall (ev : Event) (w : World) st : State World :=
  {| cache := cache st; world := w; trace := trace st ++ [ev] |}.

(** The entries one [ask] hands to [setMessage], given what it returned. *)
Definition said (text : string) (r : result string) : list Message :=
  {| sender := user; text := text |} ::
  match r with
  | Ok answer =>
      if truthy answer then [ {| sender := assistant; text := answer |} ]
      else []
  | Throw _ => []
  end.

(** [reaches ch scope log st]: a [Chat] built as [ch] can be in state [st]
    after a sequence of [ask] calls, those on [scope] having handed the
    entries [log], oldest first, to [setMessage].  Between two calls the
    world moves freely. *)
Inductive reaches ch (scope : string)
  : list Message → State World → Prop :=
| reaches_fresh w : reaches ch scope [] (initState w)
| reaches_idle log st w :
    reaches ch scope log st → reaches ch scope log (withWorld w st)
| reaches_ask log st text opts :
    reaches ch scope log st →
    reaches ch scope (log ++ said text (fst (ask ch text scope opts st)))
      (snd (ask ch text scope opts st))
| reaches_other log st text dlg opts :
    dlg ≠ scope →
    reaches ch scope log st →
    reaches ch scope log (snd (ask ch text dlg opts st)).

(** A computation that leaves the cache alone. *)
Definition framed {A} (c : Eff (State World) A) : Prop :=
  ∀ st, cache (snd (c st)) = cache st.

(** A computation that neither reads nor writes the cache: put any other
    cache in place and it does the same, leaving that cache as it was. *)
Definition oblivious {A} (c : Eff (State World) A) : Prop :=
  ∀ data st, c (withCache data st) = (fst (c st), withCache data (snd (c st))).

Definition isEnrich (ev : Event) : Prop :=
  match ev with
  | EvEnrich _ => True
  | EvCreateCompletion _ _ _ => False
  end.

End Vocabulary.

(** The parts of a prompt. *)
Definition systemHeader (role : string) : string :=
  "<|im_start|>system" +:+ LF +:+ role.

Definition factsBlock (facts : string) : string :=
  if truthy facts then LF +:+ LF +:+ "Facts:" +:+ LF +:+ trim facts else "".

Definition systemSegment (role facts : string) : string :=
  systemHeader role +:+ factsBlock facts.

Definition closingDelimiter : string := LF +:+ "<|im_end|>".

Definition continuation : string := LF +:+ "<|im_start|>assistant" +:+ LF.

Fixpoint turns (messages : list Message) : string :=
  match messages with
  | [] => ""
  | m :: messages' => turn m +:+ turns messages'
  end.

(** [inOrder segs s]: the segments occur in [s] one after the other, the
    last one at its very end. *)
Fixpoint inOrder (segs : list string) (s : string) : Prop :=
  match segs with
  | [] => s = ""
  | seg :: segs' => ∃ pre post, s = pre +:+ seg +:+ post ∧ inOrder segs' post
  end.

(** [containsCI kw text]: some stretch of [text] is [kw] up to the case of
    its letters ([kw] itself is in lower case). *)
Definition containsCI (kw text : string) : Prop :=
  ∃ pre mid post, text = pre +:+ mid +:+ post ∧ toLowerCase mid = kw.

Definition mentionsFood (text : string) : Prop :=
  containsCI "food" text ∨ containsCI "eat" text ∨ containsCI "cuisine" text.

(** * Concrete configurations and runs *)

Module Demo.

Definition conf (mem : option Z) (enr : option (Enrich Sim.world))
  : ChatConf Sim.world :=
  {| conf_url := "https://contoso.openai.azure.com";
     conf_model := "gpt-35-turbo";
     conf_apiKey := "5f121687ba674163997c4c6cb781a1a2";
     conf_role := None;
     conf_apiVer := None;
     conf_memory := mem;
     conf_enrich := enr |}.

(** A chat with the default window of 10 and one with a window of 2. *)
Definition plain : Chat Sim.world := constructor (conf None None).

Definition small : Chat Sim.world := constructor (conf (Some 2) None).

(** Two questions answered "B" and "D", a second passing per remote call. *)
Definition script : list (Z * result AxiosResponse) :=
  [ (1000, Sim.ok200 "query"); (1000, Sim.ok200 "B");
    (1000, Sim.ok200 "query"); (1000, Sim.ok200 "D") ].

Definition fresh : State Sim.world := initState (Sim.start script).

(** A fact source that is down, and a chat built on it. *)
Definition down : Enrich Sim.world :=
  fun _ => throw (Error "knowledge base unavailable").

Definition brittle : Chat Sim.world := constructor (conf None (Some down)).

(** The sample server's chat: facts from the knowledge base. *)
Definition server : Chat Sim.world :=
  constructor
    {| conf_url := "https://contoso.openai.azure.com";
       conf_model := "gpt-35-turbo";
       conf_apiKey := "5f121687ba674163997c4c6cb781a1a2";
       conf_role := Some "AI assistant recommending food";
       conf_apiVer := None;
       conf_memory := Some 5;
       conf_enrich := Some getFacts |}.

Definition afterA (ch : Chat Sim.world) : State Sim.world :=
  snd (ask ch "A" "room1" noOpts fresh).

(** The prompt put together for the question "C" that follows. *)
Definition promptC (ch : Chat Sim.world) : result string :=
  fst (bind (setMessage ch "room1" user "C") (buildPrompt ch) (afterA ch)).

(** Three appends in a row to one scope of the chat with a window of 2. *)
Definition threeAppends : State Sim.world :=
  snd (setMessage small "room1" user "three"
    (snd (setMessage small "room1" assistant "two"
      (snd (setMessage small "room1" user "one" fresh))))).

(** A world whose completion service is out of order after the first call,
    one that answers nothing, and one that declines to derive a query. *)
Definition failing : State Sim.world :=
  initState (Sim.start
    [ (1000, Sim.ok200 "query");
      (1000, Ok {| status := 503; statusText := "Service Unavailable";
                   choices := [] |}) ]).

Definition silent : State Sim.world :=
  initState (Sim.start [ (1000, Sim.ok200 "query"); (1000, Sim.ok200 "") ]).

Definition declining : State Sim.world :=
  initState (Sim.start
    [ (1000, Sim.ok200 "I'm sorry, but there is nothing to search for.");
      (1000, Sim.ok200 "B") ]).

Definition roundTrip (role : string) : list string :=
  [ systemHeader role;
    turn {| sender := user; text := "A" |};
    turn {| sender := assistant; text := "B" |};
    turn {| sender := user; text := "C" |};
    continuation ].

End Demo.

(** * src/config.ts and src/server.ts *)

(** ** [parseInt(s, 10)]

    White space is skipped, a sign is read, and the digits up to the first
    other character are the number; without a digit the result is [NaN],
    here [None].  The value is exact (JavaScript rounds beyond 2^53). *)
Module JsNumber.

Definition digit (c : ascii) : option Z :=
  let n := N_of_ascii c in
  if ((48 <=? n) && (n <=? 57))%N then Some (Z.of_N n - 48) else None.

Fixpoint digits (acc : Z) (s : string) : Z :=
  match s with
  | "" => acc
  | String c s' =>
      match digit c with
      | Some d => digits (10 * acc + d) s'
      | None => acc
      end
  end.

Definition unsigned (s : string) : option Z :=
  match s with
  | "" => None
  | String c _ =>
      match digit c with
      | Some _ => Some (digits 0 s)
      | None => None
      end
  end.

Definition parseInt (s : string) : option Z :=
  match trimStart s with
  | String "-" s' => Z.opp <$> unsigned s'
  | String "+" s' => unsigned s'
  | s' => unsigned s'
  end.

End JsNumber.


(** ** src/config.ts *)

Module Config.

(** What [envSchema.parse] returns. *)
Record Env := {
  OPENAI_URL : string;
  OPENAI_KEY : string;
  OPENAI_MODEL : string;
  PORT : option string
}.

Definition required : list string :=
  [ "OPENAI_URL"; "OPENAI_KEY"; "OPENAI_MODEL" ].

(** [envSchema.parse(process.env)]: the three [z.string()] fields must be
    there, [PORT] may be missing.  A failure carries the paths of the
    issues, one per missing field. *)
Definition parse (processEnv : gmap string string) : list string + Env :=
  match processEnv !! "OPENAI_URL", processEnv !! "OPENAI_KEY",
        processEnv !! "OPENAI_MODEL" with
  | Some u, Some k, Some m =>
      inr {| OPENAI_URL := u; OPENAI_KEY := k; OPENAI_MODEL := m;
             PORT := processEnv !! "PORT" |}
  | _, _, _ =>
      inl (filter (λ name, processEnv !! name = None) required)
  end.

Record t := {
  openai_url : string;
  openai_apiKey : string;
  openai_model : string;
  server_port : option Z
}.

(** [env.PORT || '3000'] *)
Definition portText (env : Env) : string :=
  match PORT env with
  | Some s => if truthy s then s else "3000"
  | None => "3000"
  end.

Definition config (processEnv : gmap string string) : list string + t :=
  match parse processEnv with
  | inr env =>
      inr {| openai_url := OPENAI_URL env;
             openai_apiKey := OPENAI_KEY env;
             openai_model := OPENAI_MODEL env;
             server_port := JsNumber.parseInt (portText env) |}
  | inl issues => inl issues
  end.

End Config.

(** ** src/server.ts *)

Section Server.

Context {World : Type} `{Environment World}.

(** [const ai = new Chat({...})] *)
Definition ai (config : Config.t) : Chat World :=
  constructor
    {| conf_url := Config.openai_url config;
       conf_model := Config.openai_model config;
       conf_apiKey := Config.openai_apiKey config;
       conf_role := Some "AI assistant recommending food";
       conf_apiVer := None;
       conf_memory := Some 5;
       conf_enrich := Some getFacts |}.

(** The body of a request to [/ask], as its schema has it. *)
Record AskBody := { body_text : string; body_dlg : option string }.

(** The handler of [/ask]; its result is the [answer] of the reply. *)
Definition askRoute (config : Config.t) (body : AskBody)
  : Eff (State World) string :=
  ask (ai config) (body_text body) (default "" (body_dlg body)) noOpts.

End Server.

(** * More vocabulary *)

Section Vocabulary2.

Context {World : Type} `{Environment World}.
Implicit Types (ch : Chat World) (st : State World).

(** The two remote calls of an [ask]. *)
Definition extractCall ch (text : string) : Event :=
  EvCreateCompletion (basePath ch) (extractRequest ch text) (clientOpts ch).

Definition answerCall ch (opts : CompletionOpts) (p : string) : Event :=
  EvCreateCompletion (basePath ch) (askRequest ch opts p) (clientOpts ch).

(** The calls of an [ask] that runs to its end, given the argument of the
    callback and the prompt. *)
Definition plannedCalls ch (text : string) (opts : CompletionOpts)
    (arg p : string) : list Event :=
  extractCall ch text
  :: match enrich ch with
     | Some _ => [ EvEnrich arg ]
     | None => []
     end
  ++ [ answerCall ch opts p ].

(** A remote call that goes to the deployment of the chat, under its key
    and API version, for its model and with the fixed stop sequence. *)
Definition addressed ch (ev : Event) : Prop :=
  match ev with
  | EvCreateCompletion bp req o =>
      bp = basePath ch ∧ o = clientOpts ch ∧ req_model req = model ch
      ∧ stop req = [ "<|im_end|>" ]
  | EvEnrich _ => True
  end.

(** The states of a chat after any sequence of [ask] calls, on any scopes,
    the world moving freely in between. *)
Inductive running ch : State World → Prop :=
| running_fresh w : running ch (initState w)
| running_idle st w : running ch st → running ch (withWorld w st)
| running_ask st text dlg opts :
    running ch st → running ch (snd (ask ch text dlg opts st)).

(** The states of the sample server after any sequence of requests. *)
Inductive serving (config : Config.t) : State World → Prop :=
| serving_fresh w : serving config (initState w)
| serving_idle st w : serving config st → serving config (withWorld w st)
| serving_ask st body :
    serving config st → serving config (snd (askRoute config body st)).

End Vocabulary2.

(** A text that closes its own turn and opens another one. *)
Definition forged (a : string) (s : Sender) (b : string) : string :=
  a +:+ LF +:+ "<|im_end|>" +:+ LF +:+ "<|im_start|>" +:+ senderName s +:+ LF
  +:+ b.

Module Demo2.

(** The state after the first answer, an hour later. *)
Definition anHourLater : State Sim.world :=
  withWorld
    {| Sim.now := Sim.now (world (Demo.afterA Demo.plain)) + 3600000;
       Sim.replies := Sim.replies (world (Demo.afterA Demo.plain));
       Sim.files := Sim.files (world (Demo.afterA Demo.plain));
       Sim.console := Sim.console (world (Demo.afterA Demo.plain)) |}
    (Demo.afterA Demo.plain).

(** A world whose service answers with no choice at all. *)
Definition choiceless : State Sim.world :=
  initState (Sim.start
    [ (1000, Sim.ok200 "query");
      (1000, Ok {| status := 200; statusText := "OK"; choices := [] |}) ]).

Definition processEnv : gmap string string :=
  {[ "OPENAI_URL" := "https://contoso.openai.azure.com";
     "OPENAI_KEY" := "5f121687ba674163997c4c6cb781a1a2";
     "OPENAI_MODEL" := "gpt-35-turbo";
     "PORT" := "8080" ]}.

Definition sample : Config.t :=
  {| Config.openai_url := "https://contoso.openai.azure.com";
     Config.openai_apiKey := "5f121687ba674163997c4c6cb781a1a2";
     Config.openai_model := "gpt-35-turbo";
     Config.server_port := Some 8080 |}.

(** A chat with a window below zero. *)
Definition upsideDown : Chat Sim.world :=
  constructor (Demo.conf (Some (-1)) None).

(** An environment whose model name is empty. *)
Definition modelless : gmap string string :=
  {[ "OPENAI_URL" := "https://contoso.openai.azure.com";
     "OPENAI_KEY" := "5f121687ba674163997c4c6cb781a1a2";
     "OPENAI_MODEL" := "" ]}.

(** The server after one request on "room1". *)
Definition served : State Sim.world :=
  snd (askRoute sample {| body_text := "A"; body_dlg := Some "room1" |}
         Demo.fresh).

End Demo2.

(** * Properties *)

(** ** Strings *)

Lemma str_app_cons c s s' : String c s +:+ s' = String c (s +:+ s').
Proof. reflexivity. Qed.

Lemma str_app_nil_r s : s +:+ "" = s.
Proof. induction s as [|c s IH]; [done|]. by rewrite str_app_cons, IH. Qed.

Lemma str_app_assoc s1 s2 s3 : (s1 +:+ s2) +:+ s3 = s1 +:+ (s2 +:+ s3).
Proof.
  induction s1 as [|c s1 IH]; [done|]. by rewrite !str_app_cons, IH.
Qed.

Lemma str_prefix_app n post : String.prefix n (n +:+ post) = true.
Proof.
  induction n as [|c n IH]; [by destruct post|].
  rewrite str_app_cons. simpl. by destruct (ascii_dec c c).
Qed.

Lemma str_prefix_inv n h : String.prefix n h = true → ∃ post, h = n +:+ post.
Proof.
  revert h. induction n as [|c n IH]; intros h Hp.
  - by exists h.
  - destruct h as [|d h]; [done|]. simpl in Hp.
    destruct (ascii_dec c d) as [->|]; [|done].
    destruct (IH _ Hp) as [post ->]. by exists post.
Qed.

Lemma includes_here n h : String.prefix n h = true → includes n h = true.
Proof. intros Hp. destruct h; cbn [includes]; by rewrite Hp. Qed.

Lemma includes_later n c h : includes n h = true → includes n (String c h) = true.
Proof. intros Hi. cbn [includes]. rewrite Hi. apply orb_true_r. Qed.

(** [includes] finds a needle exactly when the haystack splits around it. *)
Lemma includes_intro n pre post : includes n (pre +:+ n +:+ post) = true.
Proof.
  induction pre as [|c pre IH].
  - change ("" +:+ n +:+ post) with (n +:+ post).
    apply includes_here, str_prefix_app.
  - rewrite str_app_cons. by apply includes_later.
Qed.

Lemma includes_elim n h :
  includes n h = true → ∃ pre post, h = pre +:+ n +:+ post.
Proof.
  induction h as [|c h IH]; cbn [includes]; intros Hi.
  - rewrite orb_false_r in Hi. destruct (str_prefix_inv _ _ Hi) as [post ->].
    by exists "", post.
  - apply orb_true_iff in Hi as [Hp|Hi].
    + destruct (str_prefix_inv _ _ Hp) as [post ->]. by exists "", post.
    + destruct (IH Hi) as (pre & post & ->). by exists (String c pre), post.
Qed.

Lemma toLowerCase_app s1 s2 :
  toLowerCase (s1 +:+ s2) = toLowerCase s1 +:+ toLowerCase s2.
Proof.
  induction s1 as [|c s1 IH]; [done|].
  rewrite str_app_cons. simpl. by rewrite IH, str_app_cons.
Qed.

Lemma toLowerCase_split s a b :
  toLowerCase s = a +:+ b →
  ∃ s1 s2, s = s1 +:+ s2 ∧ toLowerCase s1 = a ∧ toLowerCase s2 = b.
Proof.
  revert s. induction a as [|c a IH]; intros s Hs.
  - by exists "", s.
  - destruct s as [|d s]; [done|]. rewrite str_app_cons in Hs.
    simpl in Hs. injection Hs as Hc Hs.
    destruct (IH _ Hs) as (s1 & s2 & -> & <- & <-).
    exists (String d s1), s2. by rewrite <- Hc.
Qed.

(** The test of [getFacts], lowering the text and looking for a keyword,
    finds the keyword whatever the case of its letters in the text. *)
Lemma includes_toLowerCase kw text :
  includes kw (toLowerCase text) = true ↔ containsCI kw text.
Proof.
  split.
  - intros (pre' & post' & Hsplit)%includes_elim.
    destruct (toLowerCase_split _ _ _ Hsplit) as (pre & rest & -> & _ & Hrest).
    destruct (toLowerCase_split _ _ _ Hrest) as (mid & post & -> & Hmid & _).
    by exists pre, mid, post.
  - intros (pre & mid & post & -> & <-).
    rewrite !toLowerCase_app. apply includes_intro.
Qed.

Lemma getFacts_test text :
  let t := toLowerCase text in
  includes "food" t || includes "eat" t || includes "cuisine" t = true
  ↔ mentionsFood text.
Proof.
  cbn zeta. unfold mentionsFood.
  rewrite !orb_true_iff, !includes_toLowerCase. tauto.
Qed.

(** ** Prompts *)

Lemma fold_turns messages p :
  fold_left (λ p m, p +:+ turn m) messages p = p +:+ turns messages.
Proof.
  revert p. induction messages as [|m messages IH]; intros p; cbn.
  - by rewrite str_app_nil_r.
  - by rewrite IH, str_app_assoc.
Qed.

Lemma turns_app l1 l2 : turns (l1 ++ l2) = turns l1 +:+ turns l2.
Proof.
  induction l1 as [|m l1 IH]; [done|]. cbn. by rewrite IH, str_app_assoc.
Qed.

(** A prompt is the system segment, the turns and the continuation, with
    nothing in between. *)
Lemma promptText_parts role facts messages :
  promptText role facts messages
  = systemSegment role facts +:+ turns messages +:+ continuation.
Proof.
  unfold promptText, systemSegment, factsBlock, systemHeader, continuation.
  rewrite fold_turns. destruct (truthy facts).
  - by rewrite !str_app_assoc.
  - by rewrite !str_app_assoc.
Qed.

Lemma inOrder_includes_second s1 s2 rest p :
  inOrder (s1 :: s2 :: rest) p → includes s2 p = true.
Proof.
  intros (pre & post & -> & pre' & post' & -> & _).
  rewrite <- (str_app_assoc s1), <- (str_app_assoc pre).
  apply includes_intro.
Qed.

(** ** The cache *)

Lemma livetime_not_expired now value :
  NodeCache.expired now {| NodeCache.v := value; NodeCache.t := NodeCache.livetime now |}
  = false.
Proof.
  unfold NodeCache.expired, NodeCache.livetime, NodeCache.stdTTL.
  cbn [NodeCache.t]. change (60 * 30 =? 0) with false. cbv iota.
  apply andb_false_iff. right. apply Z.ltb_ge. lia.
Qed.

Lemma get_set_same now key value data :
  NodeCache.get now key (NodeCache.set now key value data)
  = (Some value, NodeCache.set now key value data).
Proof.
  unfold NodeCache.get, NodeCache.set. rewrite lookup_insert_eq.
  by rewrite livetime_not_expired.
Qed.

Lemma stored_set_same now key value data :
  stored key (NodeCache.set now key value data) = value.
Proof. unfold stored, NodeCache.set. by rewrite lookup_insert_eq. Qed.

Lemma stored_set_other now key value data k :
  k ≠ key → stored k (NodeCache.set now key value data) = stored k data.
Proof.
  intros Hk. unfold stored, NodeCache.set. by rewrite lookup_insert_ne.
Qed.

Lemma stored_get_other now key data k :
  k ≠ key → stored k (snd (NodeCache.get now key data)) = stored k data.
Proof.
  intros Hk. unfold stored, NodeCache.get.
  destruct (data !! key) as [e|]; [|done].
  destruct (NodeCache.expired now e); [|done].
  cbn. by rewrite lookup_delete_ne.
Qed.

(** What [get] hands out is the stored history, or nothing. *)
Lemma retrievable_cases now key data :
  retrievable now key data = stored key data ∨ retrievable now key data = [].
Proof.
  unfold retrievable, stored, NodeCache.get.
  destruct (data !! key) as [e|]; [|by left].
  destruct (NodeCache.expired now e); [by right|by left].
Qed.

Lemma retrievable_fresh now key data e :
  data !! key = Some e → now ≤ NodeCache.t e →
  retrievable now key data = NodeCache.v e.
Proof.
  intros He Hle. unfold retrievable, NodeCache.get. rewrite He.
  unfold NodeCache.expired.
  replace (NodeCache.t e <? now) with false; [|symmetry; apply Z.ltb_ge; lia].
  by rewrite andb_false_r.
Qed.

Lemma bounded_get size now key data :
  bounded size data → bounded size (snd (NodeCache.get now key data)).
Proof.
  intros Hb. unfold NodeCache.get.
  destruct (data !! key) as [e|]; [|done].
  destruct (NodeCache.expired now e); [|done].
  intros k e' Hk. cbn in Hk. apply lookup_delete_Some in Hk as [_ Hk]. eauto.
Qed.

Lemma bounded_set size now key value data :
  Z.of_nat (length value) ≤ size → bounded size data →
  bounded size (NodeCache.set now key value data).
Proof.
  intros Hv Hb k e Hk. unfold NodeCache.set in Hk.
  apply lookup_insert_Some in Hk as [[_ <-]|[_ Hk]]; [done|eauto].
Qed.

Lemma bounded_retrievable size now key data :
  0 ≤ size → bounded size data →
  Z.of_nat (length (retrievable now key data)) ≤ size.
Proof.
  intros Hs Hb. destruct (retrievable_cases now key data) as [->| ->]; [|done].
  unfold stored. destruct (data !! key) as [e|] eqn:He; [eauto|done].
Qed.

(** ** The window *)

Lemma window_suffix size l : window size l `suffix_of` l.
Proof.
  unfold window. destruct (size <? Z.of_nat (length l)); [|done].
  destruct l as [|x l]; [done|]. by exists [x].
Qed.

Lemma window_length size l :
  0 ≤ size → Z.of_nat (length l) ≤ size + 1 →
  Z.of_nat (length (window size l)) ≤ size.
Proof.
  intros Hs Hl. unfold window.
  destruct (Z.ltb_spec size (Z.of_nat (length l))); [|done].
  destruct l as [|x l]; cbn [tail length] in *; lia.
Qed.

Lemma window_fits size l :
  Z.of_nat (length l) ≤ size → window size l = l.
Proof.
  intros Hl. unfold window.
  by destruct (Z.ltb_spec size (Z.of_nat (length l))); [lia|].
Qed.

Lemma window_drops size l :
  0 ≤ size → size < Z.of_nat (length l) →
  ∃ oldest, l = oldest :: window size l.
Proof.
  intros Hs Hl. unfold window.
  destruct (Z.ltb_spec size (Z.of_nat (length l))); [|lia].
  destruct l as [|x l]; [cbn in Hl; lia|]. by exists x.
Qed.

(** The window of a list of more than [n] entries, when [n] fit, still ends
    with the last [n] of them. *)
Lemma window_keeps_end size l k :
  Z.of_nat (length k) ≤ size →
  k `suffix_of` l → k `suffix_of` window size l.
Proof.
  intros Hk [pre ->]. unfold window.
  destruct (Z.ltb_spec size (Z.of_nat (length (pre ++ k)))); [|by exists pre].
  destruct pre as [|x pre]; [cbn in *; lia|]. by exists pre.
Qed.

(** ** The program *)

Section Program.

Context {World : Type} `{Environment World}.
Implicit Types (ch : Chat World) (st : State World).

Lemma framed_ret {A} (a : A) : framed (ret a : Eff (State World) A).
Proof. done. Qed.

Lemma framed_throw {A} e : framed (throw e : Eff (State World) A).
Proof. done. Qed.

Lemma framed_bind {A B} (c : Eff (State World) A) (k : A → Eff (State World) B) :
  framed c → (∀ a, framed (k a)) → framed (bind c k).
Proof.
  intros Hc Hk st. unfold bind. specialize (Hc st).
  destruct (c st) as [[a|e] st1]; cbn in *; [|done].
  by rewrite Hk.
Qed.

Lemma framed_external {A} ev (c : Eff World A) : framed (external ev c).
Proof. intros st. unfold external. by destruct (c (world st)). Qed.

Lemma framed_firstChoiceText res :
  framed (firstChoiceText (World:=World) res).
Proof.
  unfold firstChoiceText. destruct (choices res) as [|c ?]; [done|].
  by destruct (choice_text c).
Qed.

Lemma framed_extractSearchQuery ch text : framed (extractSearchQuery ch text).
Proof.
  unfold extractSearchQuery. apply framed_bind; [apply framed_external|].
  intros res. destruct (negb _); [done|].
  apply framed_bind; [apply framed_firstChoiceText|].
  intros answer. by destruct (_ || _).
Qed.

Lemma framed_buildPrompt ch messages : framed (buildPrompt ch messages).
Proof.
  unfold buildPrompt. apply framed_bind.
  { unfold lastText. by destruct (last messages). }
  intros text. apply framed_bind; [apply framed_extractSearchQuery|].
  intros q. apply framed_bind; [|done].
  destruct (enrich ch); [apply framed_external|done].
Qed.

(** [setMessage] on the empty scope and on a named one. *)
Lemma setMessage_stateless ch sender text st :
  setMessage ch "" sender text st
  = (Ok [ {| sender := sender; text := text |} ], st).
Proof. reflexivity. Qed.

Lemma setMessage_scoped ch scope sender text st :
  scope ≠ "" →
  let now := clock (world st) in
  let kept :=
    window (memory ch)
      (retrievable now scope (cache st) ++ [ {| sender := sender; text := text |} ]) in
  setMessage ch scope sender text st
  = (Ok kept,
     withCache
       (NodeCache.set now scope kept (snd (NodeCache.get now scope (cache st))))
       st).
Proof.
  intros Hs now kept. unfold setMessage.
  destruct scope as [|c scope]; [done|]. cbn [truthy negb].
  unfold bind, cacheGet, cacheSet, modify, ret, retrievable in *.
  subst now kept. destruct (NodeCache.get _ _ _) as [r data]. reflexivity.
Qed.

Lemma setMessage_returns ch scope sender text st :
  ∃ messages, fst (setMessage ch scope sender text st) = Ok messages.
Proof.
  destruct (decide (scope = "")) as [->|Hs].
  - rewrite setMessage_stateless. eauto.
  - rewrite setMessage_scoped by done. eauto.
Qed.

Lemma setMessage_world ch scope sender text st :
  world (snd (setMessage ch scope sender text st)) = world st
  ∧ trace (snd (setMessage ch scope sender text st)) = trace st.
Proof.
  destruct (decide (scope = "")) as [->|Hs].
  - by rewrite setMessage_stateless.
  - by rewrite setMessage_scoped.
Qed.

(** What one [ask] does to the cache: the user entry always goes through
    [setMessage]; the assistant entry does exactly when an answer that is
    not empty is returned. *)
Lemma ask_cache ch text dlg opts st :
  ∃ messages st1,
    setMessage ch dlg user text st = (Ok messages, st1) ∧
    ((said text (fst (ask ch text dlg opts st))
        = [ {| sender := user; text := text |} ]
      ∧ cache (snd (ask ch text dlg opts st)) = cache st1)
     ∨ ∃ answer st3,
         said text (fst (ask ch text dlg opts st))
           = [ {| sender := user; text := text |};
               {| sender := assistant; text := answer |} ]
         ∧ cache st3 = cache st1
         ∧ snd (ask ch text dlg opts st)
             = snd (setMessage ch dlg assistant answer st3)).
Proof.
  destruct (setMessage_returns ch dlg user text st) as [messages Hm].
  destruct (setMessage ch dlg user text st) as [r st1] eqn:E.
  cbn in Hm. subst r. exists messages, st1. split; [done|].
  unfold ask, bind. rewrite E.
  pose proof (framed_buildPrompt ch messages st1) as Hf.
  destruct (buildPrompt ch messages st1) as [[p|e] st2]; cbn in Hf;
    [|by left].
  unfold external.
  destruct (createCompletion _ _ _ _) as [[res|e] w3]; [|by left].
  destruct (negb (status res =? 200)); [by left|].
  unfold firstChoiceText. destruct (choices res) as [|c cs]; [by left|].
  destruct (choice_text c) as [s|]; [|by left].
  destruct s as [|a s]; [by left|]. cbn -[setMessage].
  set (st3 := {| cache := cache st2; world := w3; trace := _ |}).
  destruct (setMessage_returns ch dlg assistant (String a s) st3) as [ms Hms].
  right. exists (String a s), st3.
  destruct (setMessage ch dlg assistant (String a s) st3) as [r st4].
  cbn in Hms. subst r. by cbn.
Qed.

(** *** The history under [setMessage] *)

Lemma setMessage_history ch scope sender text st :
  scope ≠ "" →
  history scope (snd (setMessage ch scope sender text st))
  = window (memory ch)
      (retrievable (clock (world st)) scope (cache st)
         ++ [ {| sender := sender; text := text |} ]).
Proof.
  intros Hs. rewrite setMessage_scoped by done.
  unfold history. cbn. apply stored_set_same.
Qed.

Lemma setMessage_retrievable ch scope sender text st :
  scope ≠ "" →
  let st' := snd (setMessage ch scope sender text st) in
  retrievable (clock (world st')) scope (cache st')
  = window (memory ch)
      (retrievable (clock (world st)) scope (cache st)
         ++ [ {| sender := sender; text := text |} ]).
Proof.
  intros Hs. rewrite setMessage_scoped by done. cbn.
  unfold retrievable at 1. by rewrite get_set_same.
Qed.

Lemma setMessage_history_other ch scope sender text st k :
  k ≠ scope →
  history k (snd (setMessage ch scope sender text st)) = history k st.
Proof.
  intros Hk. destruct (decide (scope = "")) as [->|Hs].
  - by rewrite setMessage_stateless.
  - rewrite setMessage_scoped by done. unfold history. cbn.
    rewrite stored_set_other by done. by apply stored_get_other.
Qed.

Lemma setMessage_bounded ch scope sender text st :
  0 ≤ memory ch → bounded (memory ch) (cache st) →
  bounded (memory ch) (cache (snd (setMessage ch scope sender text st))).
Proof.
  intros Hm Hb. destruct (decide (scope = "")) as [->|Hs].
  - by rewrite setMessage_stateless.
  - rewrite setMessage_scoped by done. cbn.
    apply bounded_set; [|by apply bounded_get].
    apply window_length; [done|]. rewrite length_app. cbn.
    pose proof (bounded_retrievable _ (clock (world st)) scope _ Hm Hb). lia.
Qed.

Lemma setMessage_suffix ch scope sender text st log :
  scope ≠ "" →
  history scope st `suffix_of` log →
  history scope (snd (setMessage ch scope sender text st))
    `suffix_of` log ++ [ {| sender := sender; text := text |} ].
Proof.
  intros Hs Hl. rewrite setMessage_history by done.
  etrans; [apply window_suffix|]. apply suffix_snoc.
  destruct (retrievable_cases (clock (world st)) scope (cache st)) as [->| ->];
    [done|apply suffix_nil].
Qed.

(** *** The history under [ask] *)

Lemma ask_bounded ch text dlg opts st :
  0 ≤ memory ch → bounded (memory ch) (cache st) →
  bounded (memory ch) (cache (snd (ask ch text dlg opts st))).
Proof.
  intros Hm Hb.
  pose proof (setMessage_bounded ch dlg user text st Hm Hb) as Hb1.
  destruct (ask_cache ch text dlg opts st)
    as (ms & st1 & E & [[_ ->]|(a & st3 & _ & E3 & ->)]).
  all: rewrite E in Hb1; cbn in Hb1.
  - done.
  - apply setMessage_bounded; [done|]. by rewrite E3.
Qed.

Lemma ask_history_other ch text dlg opts st k :
  k ≠ dlg →
  history k (snd (ask ch text dlg opts st)) = history k st.
Proof.
  intros Hk.
  pose proof (setMessage_history_other ch dlg user text st k Hk) as H1.
  destruct (ask_cache ch text dlg opts st)
    as (ms & st1 & E & [[_ Hc]|(a & st3 & _ & E3 & ->)]).
  all: rewrite E in H1; cbn in H1.
  - unfold history in *. by rewrite Hc.
  - rewrite setMessage_history_other by done.
    unfold history in *. by rewrite E3.
Qed.

Lemma ask_suffix ch text dlg opts st log :
  dlg ≠ "" →
  history dlg st `suffix_of` log →
  history dlg (snd (ask ch text dlg opts st))
    `suffix_of` log ++ said text (fst (ask ch text dlg opts st)).
Proof.
  intros Hs Hl.
  pose proof (setMessage_suffix ch dlg user text st log Hs Hl) as H1.
  destruct (ask_cache ch text dlg opts st)
    as (ms & st1 & E & [[-> Hc]|(a & st3 & -> & E3 & ->)]).
  all: rewrite E in H1; cbn in H1.
  - unfold history in *. by rewrite Hc.
  - change [ {| sender := user; text := text |};
             {| sender := assistant; text := a |} ]
      with ([ {| sender := user; text := text |} ]
              ++ [ {| sender := assistant; text := a |} ]).
    rewrite (assoc (++)). apply setMessage_suffix; [done|].
    unfold history in *. by rewrite E3.
Qed.

Lemma reaches_invariant ch scope log st :
  0 ≤ memory ch → scope ≠ "" →
  reaches ch scope log st →
  bounded (memory ch) (cache st) ∧ history scope st `suffix_of` log.
Proof.
  intros Hm Hs. induction 1 as [w|log st w _ [IHb IHs]
    |log st text opts _ [IHb IHs]|log st text dlg opts Hne _ [IHb IHs]].
  - split; [|done]. intros k e Hk. cbn in Hk. by rewrite lookup_empty in Hk.
  - done.
  - split; [by apply ask_bounded|by apply ask_suffix].
  - split; [by apply ask_bounded|]. by rewrite ask_history_other.
Qed.

Lemma bounded_history size scope st :
  0 ≤ size → bounded size (cache st) →
  Z.of_nat (length (history scope st)) ≤ size.
Proof.
  intros Hs Hb. unfold history, stored.
  destruct (cache st !! scope) as [e|] eqn:He; [eauto|done].
Qed.

(** *** What an answered [ask] leaves behind *)

Lemma setMessage_entry ch scope sender text st :
  scope ≠ "" →
  cache (snd (setMessage ch scope sender text st)) !! scope
  = Some {| NodeCache.v := history scope (snd (setMessage ch scope sender text st));
            NodeCache.t := NodeCache.livetime (clock (world st)) |}.
Proof.
  intros Hs. rewrite setMessage_history by done.
  rewrite setMessage_scoped by done. cbn.
  unfold NodeCache.set. by rewrite lookup_insert_eq.
Qed.

Lemma ask_answered ch text dlg opts st answer :
  fst (ask ch text dlg opts st) = Ok answer → answer ≠ "" →
  ∃ st3,
    cache st3 = cache (snd (setMessage ch dlg user text st))
    ∧ snd (ask ch text dlg opts st)
        = snd (setMessage ch dlg assistant answer st3).
Proof.
  intros Hr Ha.
  destruct (ask_cache ch text dlg opts st)
    as (ms & st1 & E & [[Hsaid _]|(a & st3 & Hsaid & E3 & Hst)]);
    rewrite Hr in Hsaid; unfold said in Hsaid;
    destruct answer as [|c answer]; try done; cbn in Hsaid.
  injection Hsaid as <-. exists st3. by rewrite E.
Qed.

Lemma buildPrompt_result ch messages st p st' :
  buildPrompt ch messages st = (Ok p, st') →
  ∃ facts, p = promptText (role ch) facts messages.
Proof.
  unfold buildPrompt, bind. intros Hb.
  destruct (lastText messages st) as [[text|] st1]; [|done].
  destruct (extractSearchQuery ch text st1) as [[q|] st2]; [|done].
  destruct (enrich ch) as [f|].
  - destruct (external _ _ st2) as [[facts|] st3]; [|done].
    exists facts. unfold ret in Hb. congruence.
  - exists "". unfold ret in Hb. congruence.
Qed.

(** *** Computations that do not look at the cache *)

Lemma oblivious_ret {A} (a : A) : oblivious (ret a : Eff (State World) A).
Proof. done. Qed.

Lemma oblivious_throw {A} e : oblivious (throw e : Eff (State World) A).
Proof. done. Qed.

Lemma oblivious_bind {A B} (c : Eff (State World) A)
    (k : A → Eff (State World) B) :
  oblivious c → (∀ a, oblivious (k a)) → oblivious (bind c k).
Proof.
  intros Hc Hk data st. unfold bind. rewrite Hc.
  destruct (c st) as [[a|e] st1]; cbn; [|done]. rewrite Hk.
  by destruct (k a st1).
Qed.

Lemma oblivious_external {A} ev (c : Eff World A) : oblivious (external ev c).
Proof. intros data st. unfold external. cbn. by destruct (c (world st)). Qed.

Lemma oblivious_firstChoiceText res :
  oblivious (firstChoiceText (World:=World) res).
Proof.
  unfold firstChoiceText. destruct (choices res) as [|c ?]; [done|].
  by destruct (choice_text c).
Qed.

Lemma oblivious_buildPrompt ch messages : oblivious (buildPrompt ch messages).
Proof.
  unfold buildPrompt. apply oblivious_bind.
  { unfold lastText. by destruct (last messages). }
  intros text. apply oblivious_bind.
  { unfold extractSearchQuery.
    apply oblivious_bind; [apply oblivious_external|].
    intros res. destruct (negb _); [done|].
    apply oblivious_bind; [apply oblivious_firstChoiceText|].
    intros answer. by destruct (_ || _). }
  intros q. apply oblivious_bind; [|done].
  destruct (enrich ch); [apply oblivious_external|done].
Qed.

Lemma oblivious_ask_stateless ch text opts : oblivious (ask ch text "" opts).
Proof.
  unfold ask. apply oblivious_bind; [done|].
  intros messages. apply oblivious_bind; [apply oblivious_buildPrompt|].
  intros p. apply oblivious_bind; [apply oblivious_external|].
  intros res. destruct (negb _); [done|].
  apply oblivious_bind; [apply oblivious_firstChoiceText|].
  intros answer. apply oblivious_bind; [|done].
  destruct (truthy answer); [|done].
  by apply oblivious_bind.
Qed.

(** The entry just appended is the last one of a window of at least one. *)
Lemma setMessage_last ch scope sender text st :
  scope ≠ "" → 1 ≤ memory ch →
  last (history scope (snd (setMessage ch scope sender text st)))
  = Some {| sender := sender; text := text |}.
Proof.
  intros Hs Hm. rewrite setMessage_history by done.
  match goal with
  | |- last (window _ (?l ++ [?m])) = _ =>
      destruct (window_keeps_end (memory ch) (l ++ [m]) [m]) as [k ->]
  end.
  - cbn. lia.
  - by eexists.
  - apply last_snoc.
Qed.

Lemma setMessage_nonempty ch scope sender text st messages st1 :
  scope = "" ∨ 1 ≤ memory ch →
  setMessage ch scope sender text st = (Ok messages, st1) →
  last messages = Some {| sender := sender; text := text |}.
Proof.
  intros Hm E. destruct (decide (scope = "")) as [->|Hs].
  - rewrite setMessage_stateless in E. by injection E as <- _.
  - destruct Hm as [|Hm]; [done|].
    pose proof (setMessage_last ch scope sender text st Hs Hm) as Hl.
    rewrite setMessage_history in Hl by done.
    rewrite setMessage_scoped in E by done. by injection E as <- _.
Qed.

(** *** Failures on the way to the answer *)

(** The extraction call fails like the call for the answer does. *)
Lemma extraction_failure_throws ch text st res w2 :
  createCompletion (basePath ch) (extractRequest ch text) (clientOpts ch)
    (world st) = (Ok res, w2) →
  status res ≠ 200 →
  extractSearchQuery ch text st
  = (Throw (apiError res),
     afterCall
       (EvCreateCompletion (basePath ch) (extractRequest ch text) (clientOpts ch))
       w2 st).
Proof.
  intros Hcall Hstatus. unfold extractSearchQuery, bind, external.
  rewrite Hcall. by destruct (Z.eqb_spec (status res) 200).
Qed.

(** A call that the client itself rejects rejects [ask] in the same way. *)
Lemma completion_rejection_propagates ch text dlg opts st messages st1 p st2 e w3 :
  setMessage ch dlg user text st = (Ok messages, st1) →
  buildPrompt ch messages st1 = (Ok p, st2) →
  createCompletion (basePath ch) (askRequest ch opts p) (clientOpts ch)
    (world st2) = (Throw e, w3) →
  ask ch text dlg opts st
  = (Throw e,
     afterCall
       (EvCreateCompletion (basePath ch) (askRequest ch opts p) (clientOpts ch))
       w3 st2).
Proof.
  intros Hset Hbuild Hcall. unfold ask, bind. rewrite Hset, Hbuild.
  unfold external. by rewrite Hcall.
Qed.

(** Why the window is taken as a count: below zero, the entry just pushed
    is shifted out again and [buildPrompt] finds no last message. *)
Lemma negative_window_rejects ch text scope opts w :
  memory ch < 0 → scope ≠ "" →
  fst (ask ch text scope opts (initState w))
  = Throw (TypeError "Cannot read properties of undefined (reading 'text')").
Proof.
  intros Hm Hs.
  assert (retrievable (clock w) scope ∅ = []) as Hr.
  { unfold retrievable, NodeCache.get. by rewrite lookup_empty. }
  unfold ask, bind at 1. rewrite setMessage_scoped by done.
  cbn [initState world cache]. rewrite Hr. unfold window. cbn [length app].
  destruct (Z.ltb_spec (memory ch) (Z.of_nat 1)); [|lia]. done.
Qed.

End Program.

(** * The properties of the specification *)

Section Specification.

Context {World : Type} `{Environment World}.
Implicit Types (ch : Chat World) (st : State World).

(** C1. With a memory size that is not negative and a scope that is not
    empty: after every sequence of [ask] calls the history kept under the
    scope has at most [memory] entries and is a final stretch, oldest first,
    of the entries handed to [setMessage], and what can be retrieved of it
    at any time is all of it or nothing; one append adds the entry at the
    end when there is room and otherwise drops exactly the oldest entry;
    with memory size 2, three appends in a row leave the last two entries
    retrievable. *)
Theorem history_is_bounded_fifo ch scope :
  0 ≤ memory ch → scope ≠ "" →
  (∀ log st, reaches ch scope log st →
     Z.of_nat (length (history scope st)) ≤ memory ch
     ∧ history scope st `suffix_of` log
     ∧ ∀ now, retrievable now scope (cache st) = history scope st
              ∨ retrievable now scope (cache st) = [])
  ∧ (∀ st sender text,
       let old := retrievable (clock (world st)) scope (cache st) in
       let m := {| sender := sender; text := text |} in
       let st' := snd (setMessage ch scope sender text st) in
       fst (setMessage ch scope sender text st) = Ok (history scope st')
       ∧ (Z.of_nat (length old) < memory ch → history scope st' = old ++ [m])
       ∧ (Z.of_nat (length old) = memory ch →
          ∃ oldest, old ++ [m] = oldest :: history scope st'))
  ∧ (memory ch = 2 →
     ∀ log st s1 t1 s2 t2 s3 t3, reaches ch scope log st →
       let st1 := snd (setMessage ch scope s1 t1 st) in
       let st2 := snd (setMessage ch scope s2 t2 st1) in
       let st3 := snd (setMessage ch scope s3 t3 st2) in
       retrievable (clock (world st3)) scope (cache st3)
       = [ {| sender := s2; text := t2 |}; {| sender := s3; text := t3 |} ]).
Proof.
  intros Hm Hs. split; [|split].
  - intros log st Hr.
    destruct (reaches_invariant _ _ _ _ Hm Hs Hr) as [Hb Hl].
    split; [by apply bounded_history|]. split; [done|].
    intros now. apply retrievable_cases.
  - intros st sender text old m st'. subst st'.
    rewrite setMessage_history by done. fold old m.
    split; [by rewrite setMessage_scoped|]. split.
    + intros Hlt. apply window_fits. rewrite length_app. cbn. lia.
    + intros Heq. apply window_drops; [done|]. rewrite length_app. cbn. lia.
  - intros Hm2 log st s1 t1 s2 t2 s3 t3 Hr st1 st2 st3.
    destruct (reaches_invariant _ _ _ _ Hm Hs Hr) as [Hb _].
    pose proof (bounded_retrievable _ (clock (world st)) scope _ Hm Hb) as Hold.
    subst st3 st2 st1. rewrite !setMessage_retrievable by done.
    rewrite Hm2 in *.
    destruct (retrievable _ _ _) as [|a [|b [|c old]]]; [done..|].
    cbn in Hold. lia.
Qed.

(** C2, amended.  With a window of at least 3 entries, and as long as the
    entry of the scope is not older than the time to live when the answer is
    recorded and when the second call arrives: after [ask] on a scope with
    text [a] returned the answer [b], the prompt that a second [ask] on the
    scope with text [c] puts together holds, in this order, the role
    segment, the user turn [a], the assistant turn [b], the user turn [c]
    and, at its end, the empty assistant turn. *)
Theorem round_trip_prompt ch scope a b c opts st w :
  3 ≤ memory ch → scope ≠ "" → b ≠ "" →
  fst (ask ch a scope opts st) = Ok b →
  clock (world (snd (ask ch a scope opts st)))
    ≤ clock (world st) + NodeCache.stdTTL * 1000 →
  clock w
    ≤ clock (world (snd (ask ch a scope opts st))) + NodeCache.stdTTL * 1000 →
  ∀ messages st2 p st3,
    setMessage ch scope user c (withWorld w (snd (ask ch a scope opts st)))
      = (Ok messages, st2) →
    buildPrompt ch messages st2 = (Ok p, st3) →
    inOrder
      [ systemHeader (role ch);
        turn {| sender := user; text := a |};
        turn {| sender := assistant; text := b |};
        turn {| sender := user; text := c |};
        continuation ] p.
Proof.
  intros Hm Hs Hb Hr Ht1 Ht2 messages st2 p st3 Hset Hbuild.
  destruct (ask_answered _ _ _ _ _ _ Hr Hb) as (sta & Hca & Hst).
  set (A := {| sender := user; text := a |}).
  set (B := {| sender := assistant; text := b |}).
  set (C := {| sender := user; text := c |}).
  (* the user entry *)
  set (st1 := snd (setMessage ch scope user a st)) in *.
  assert ([A] `suffix_of` history scope st1) as HA.
  { subst st1. rewrite setMessage_history by done.
    apply window_keeps_end; [cbn; lia|]. by eexists. }
  pose proof (setMessage_entry ch scope user a st Hs) as He1. fold st1 in He1.
  (* the assistant entry *)
  assert (world (snd (ask ch a scope opts st)) = world sta) as Hw.
  { rewrite Hst. apply setMessage_world. }
  assert ([A; B] `suffix_of` history scope (snd (ask ch a scope opts st))) as HAB.
  { rewrite Hst, setMessage_history by done. rewrite Hca.
    rewrite (retrievable_fresh _ _ _ _ He1); [|cbn; rewrite <- Hw; exact Ht1].
    apply window_keeps_end; [cbn; lia|].
    by apply (suffix_snoc [A] _ B). }
  pose proof (setMessage_entry ch scope assistant b sta Hs) as He2.
  rewrite <- Hst, <- Hw in He2.
  (* the second call *)
  rewrite setMessage_scoped in Hset by done. cbn in Hset.
  rewrite (retrievable_fresh _ _ _ _ He2) in Hset; [|exact Ht2].
  injection Hset as <- _. cbn in Hbuild.
  match type of Hbuild with
  | buildPrompt _ ?ms _ = _ => assert ([A; B; C] `suffix_of` ms) as [pre Hpre]
  end.
  { apply window_keeps_end; [cbn; lia|]. by apply (suffix_snoc [A; B] _ C). }
  destruct (buildPrompt_result _ _ _ _ _ Hbuild) as [facts ->].
  rewrite promptText_parts, Hpre, turns_app. cbn [turns inOrder].
  unfold systemSegment. rewrite str_app_nil_r, !str_app_assoc.
  exists "", (factsBlock facts +:+ turns pre +:+ turn A +:+ turn B +:+ turn C
              +:+ continuation).
  split; [done|].
  exists (factsBlock facts +:+ turns pre), (turn B +:+ turn C +:+ continuation).
  split; [by rewrite !str_app_assoc|].
  exists "", (turn C +:+ continuation). split; [done|].
  exists "", continuation. split; [done|].
  exists "", "". by rewrite str_app_nil_r.
Qed.

(** C3. When the completion call for the answer comes back with a status
    other than 200, [ask] throws an error whose message carries the status
    text and the status; that call is the last thing it does (the request is
    not sent again) and the cache is left as the append of the user entry
    left it, so no assistant entry is added. *)
Theorem completion_failure_throws ch text dlg opts st messages st1 p st2 res w3 :
  setMessage ch dlg user text st = (Ok messages, st1) →
  buildPrompt ch messages st1 = (Ok p, st2) →
  createCompletion (basePath ch) (askRequest ch opts p) (clientOpts ch)
    (world st2) = (Ok res, w3) →
  status res ≠ 200 →
  ask ch text dlg opts st
  = (Throw (Error ("OpenAI API error: " +:+ statusText res +:+ " (" +:+
                   pretty (status res) +:+ ")")),
     afterCall
       (EvCreateCompletion (basePath ch) (askRequest ch opts p) (clientOpts ch))
       w3 st2)
  ∧ cache (snd (ask ch text dlg opts st)) = cache st1.
Proof.
  intros Hset Hbuild Hcall Hstatus.
  assert (ask ch text dlg opts st
          = (Throw (apiError res),
             afterCall (EvCreateCompletion (basePath ch) (askRequest ch opts p)
                          (clientOpts ch)) w3 st2)) as ->.
  { unfold ask, bind. rewrite Hset, Hbuild. unfold external. rewrite Hcall.
    by destruct (Z.eqb_spec (status res) 200). }
  split; [done|]. cbn.
  pose proof (framed_buildPrompt ch messages st1) as Hf.
  by rewrite Hbuild in Hf.
Qed.

(** C4. [ask] on the empty scope leaves the cache as it was, does not
    depend on what the cache holds (in any other cache it returns the same
    and leaves that cache as it was), and works on the one-entry list made
    of its own user entry. *)
Theorem empty_scope_is_stateless ch text opts st :
  cache (snd (ask ch text "" opts st)) = cache st
  ∧ (∀ data,
       ask ch text "" opts (withCache data st)
       = (fst (ask ch text "" opts st),
          withCache data (snd (ask ch text "" opts st))))
  ∧ setMessage ch "" user text st
    = (Ok [ {| sender := user; text := text |} ], st).
Proof.
  split; [|split].
  - pose proof (oblivious_ask_stateless ch text opts (cache st) st) as Ho.
    replace (withCache (cache st) st) with st in Ho by by destruct st.
    by rewrite Ho at 1.
  - intros data. apply oblivious_ask_stateless.
  - apply setMessage_stateless.
Qed.

(** C5. When the completion call for the answer comes back with status 200
    and a first choice, [ask] returns its text, or the empty string when
    the text is missing.  For the empty string nothing more is done; for any
    other answer the assistant entry goes through [setMessage].  On a named
    scope with a window of at least one entry, the history ends with the
    assistant entry exactly when the answer is not empty. *)
Theorem empty_answer_not_recorded ch text dlg opts st messages st1 p st2 res w3
    c cs :
  setMessage ch dlg user text st = (Ok messages, st1) →
  buildPrompt ch messages st1 = (Ok p, st2) →
  createCompletion (basePath ch) (askRequest ch opts p) (clientOpts ch)
    (world st2) = (Ok res, w3) →
  status res = 200 →
  choices res = c :: cs →
  let answer := default "" (choice_text c) in
  let st3 :=
    afterCall
      (EvCreateCompletion (basePath ch) (askRequest ch opts p) (clientOpts ch))
      w3 st2 in
  fst (ask ch text dlg opts st) = Ok answer
  ∧ (answer = "" →
     snd (ask ch text dlg opts st) = st3
     ∧ cache (snd (ask ch text dlg opts st)) = cache st1)
  ∧ (answer ≠ "" →
     snd (ask ch text dlg opts st)
     = snd (setMessage ch dlg assistant answer st3))
  ∧ (dlg ≠ "" → 1 ≤ memory ch →
     last (history dlg (snd (ask ch text dlg opts st)))
       = Some {| sender := assistant; text := answer |}
     ↔ answer ≠ "").
Proof.
  intros Hset Hbuild Hcall Hstatus Hchoices answer st3.
  pose proof (framed_buildPrompt ch messages st1) as Hf.
  rewrite Hbuild in Hf. cbn in Hf.
  assert (ask ch text dlg opts st
          = if truthy answer
            then (Ok answer, snd (setMessage ch dlg assistant answer st3))
            else (Ok "", st3)) as Hask.
  { unfold ask, bind. rewrite Hset, Hbuild. unfold external. rewrite Hcall.
    rewrite Hstatus. cbn [Z.eqb Pos.eqb negb].
    unfold firstChoiceText. rewrite Hchoices. subst answer.
    fold (afterCall (EvCreateCompletion (basePath ch) (askRequest ch opts p)
                       (clientOpts ch)) w3 st2). fold st3.
    destruct (choice_text c) as [[|a s]|]; [done| |done].
    cbn -[setMessage].
    destruct (setMessage_returns ch dlg assistant (String a s) st3) as [ms Hms].
    destruct (setMessage ch dlg assistant (String a s) st3) as [r st4].
    cbn in Hms. by subst r. }
  rewrite Hask. destruct answer as [|a s] eqn:Ha; cbn [truthy fst snd].
  - split; [done|]. split; [done|]. split; [done|].
    intros Hs Hm. split; [|done]. intros Hlast.
    pose proof (setMessage_last ch dlg user text st Hs Hm) as Hu.
    rewrite Hset in Hu. unfold history in *. cbn in *. rewrite Hf in Hlast.
    congruence.
  - split; [done|]. split; [done|]. split; [done|].
    intros Hs Hm. split; [done|]. intros _. by apply setMessage_last.
Qed.

(** C6, amended.  When the enrichment callback throws, [ask] throws the
    same error: the callback is the last thing it calls, the request for the
    answer is not sent, and the cache is left as the append of the user
    entry left it. *)
Theorem enrichment_failure_aborts ch text dlg opts st messages st1 q st2 f e w3 :
  dlg = "" ∨ 1 ≤ memory ch →
  setMessage ch dlg user text st = (Ok messages, st1) →
  extractSearchQuery ch text st1 = (Ok q, st2) →
  enrich ch = Some f →
  f (if truthy q then q else text) (world st2) = (Throw e, w3) →
  ask ch text dlg opts st
  = (Throw e, afterCall (EvEnrich (if truthy q then q else text)) w3 st2)
  ∧ cache (snd (ask ch text dlg opts st)) = cache st1.
Proof.
  intros Hm Hset Hq Hf Hthrow.
  pose proof (setMessage_nonempty _ _ _ _ _ _ _ Hm Hset) as Hlast.
  assert (ask ch text dlg opts st
          = (Throw e, afterCall (EvEnrich (if truthy q then q else text)) w3 st2))
    as ->.
  { unfold ask, bind at 1. rewrite Hset. unfold bind at 1.
    unfold buildPrompt, bind at 1, lastText. rewrite Hlast.
    unfold ret at 1. cbn -[extractSearchQuery bind external].
    unfold bind at 1. rewrite Hq.
    unfold bind at 1. rewrite Hf. unfold external. by rewrite Hthrow. }
  split; [done|]. cbn.
  pose proof (framed_extractSearchQuery ch text st1) as Hfr.
  by rewrite Hq in Hfr.
Qed.

(** C7. The prompt is the system segment (header, role and facts block)
    directly followed by the turns and the continuation: what follows the
    system segment does not start with the closing delimiter, it starts a
    new turn.  Every prompt that [buildPrompt] returns has this form. *)
Theorem system_segment_not_closed ch messages :
  (∀ facts,
     ∃ rest,
       promptText (role ch) facts messages
         = systemSegment (role ch) facts +:+ rest
       ∧ rest = turns messages +:+ continuation
       ∧ String.prefix closingDelimiter rest = false
       ∧ String.prefix (LF +:+ "<|im_start|>") rest = true)
  ∧ (∀ st p st',
       buildPrompt ch messages st = (Ok p, st') →
       ∃ facts, p = promptText (role ch) facts messages).
Proof.
  split; [|intros st p st'; apply buildPrompt_result].
  intros facts. exists (turns messages +:+ continuation).
  split; [apply promptText_parts|]. split; [done|].
  destruct messages as [|m messages]; [by split|].
  cbn [turns]. unfold turn. rewrite !str_app_assoc.
  split; [reflexivity|].
  rewrite <- (str_app_assoc LF "<|im_start|>"). apply str_prefix_app.
Qed.

(** C8. Let the extraction call come back with status 200 and a first
    choice.  When its text holds one of the two marker phrases,
    [extractSearchQuery] returns the empty string; otherwise it returns the
    text.  A configured callback is then called once, with the derived query
    when that is not empty and with the raw text of the question otherwise;
    without a callback nothing is called and the prompt has no facts. *)
Theorem enrichment_query ch text dlg st messages st1 res w2 c cs :
  dlg = "" ∨ 1 ≤ memory ch →
  setMessage ch dlg user text st = (Ok messages, st1) →
  createCompletion (basePath ch) (extractRequest ch text) (clientOpts ch)
    (world st1) = (Ok res, w2) →
  status res = 200 →
  choices res = c :: cs →
  let answer := default "" (choice_text c) in
  let marked := includes sorry answer || includes notValid answer in
  let st2 :=
    afterCall
      (EvCreateCompletion (basePath ch) (extractRequest ch text) (clientOpts ch))
      w2 st1 in
  (marked = true → extractSearchQuery ch text st1 = (Ok "", st2))
  ∧ (marked = false → extractSearchQuery ch text st1 = (Ok answer, st2))
  ∧ (∀ f, enrich ch = Some f →
       let arg := if marked then text else if truthy answer then answer else text in
       buildPrompt ch messages st1
       = match f arg w2 with
         | (Ok facts, w3) =>
             (Ok (promptText (role ch) facts messages),
              afterCall (EvEnrich arg) w3 st2)
         | (Throw e, w3) => (Throw e, afterCall (EvEnrich arg) w3 st2)
         end)
  ∧ (enrich ch = None →
     buildPrompt ch messages st1
     = (Ok (promptText (role ch) "" messages), st2)).
Proof.
  intros Hm Hset Hcall Hstatus Hchoices answer marked st2.
  pose proof (setMessage_nonempty _ _ _ _ _ _ _ Hm Hset) as Hlast.
  assert (extractSearchQuery ch text st1
          = (Ok (if marked then "" else answer), st2)) as Hq.
  { unfold extractSearchQuery, bind, external. rewrite Hcall, Hstatus.
    cbn [Z.eqb Pos.eqb negb]. unfold firstChoiceText. rewrite Hchoices.
    subst marked answer.
    destruct (choice_text c) as [[|a s]|]; [done| |done].
    cbn [truthy default]. unfold ret at 1.
    by destruct (_ || _). }
  assert (buildPrompt ch messages st1
          = bind (match enrich ch with
                  | Some f =>
                      let arg :=
                        if marked then text
                        else if truthy answer then answer else text in
                      external (EvEnrich arg) (f arg)
                  | None => ret ""
                  end)
              (λ facts, ret (promptText (role ch) facts messages)) st2)
    as Hb.
  { unfold buildPrompt, bind at 1, lastText. rewrite Hlast.
    unfold ret at 1. cbn -[extractSearchQuery bind external].
    unfold bind at 1. rewrite Hq.
    destruct (enrich ch); [|done]. by destruct marked. }
  split; [by intros Hmk; rewrite Hq, Hmk|].
  split; [by intros Hmk; rewrite Hq, Hmk|]. split.
  - intros f Hf arg. rewrite Hb, Hf. unfold bind, external. fold arg. cbn.
    by destruct (f arg w2) as [[facts|e] w3].
  - intros Hf. by rewrite Hb, Hf.
Qed.

(** C9. [getFacts] logs its input; when the input holds "food", "eat" or
    "cuisine" in any mix of upper and lower case it hands back what reading
    the knowledge base file gives, and for every other input it returns the
    empty string.  When the file is read and is not empty, its contents are
    returned exactly when the input holds one of the three words. *)
Theorem getFacts_keywords text w :
  (mentionsFood text →
   getFacts text w = readFile "./kb/marseoni.txt" "utf8" (consoleLog text w))
  ∧ (¬ mentionsFood text → getFacts text w = (Ok "", consoleLog text w))
  ∧ (∀ contents w',
       readFile "./kb/marseoni.txt" "utf8" (consoleLog text w)
         = (Ok contents, w') →
       contents ≠ "" →
       fst (getFacts text w) = Ok contents ↔ mentionsFood text).
Proof.
  pose proof (getFacts_test text) as Ht. cbn zeta in Ht.
  unfold getFacts, bind, modify, kbPath.
  destruct (_ || _) eqn:E.
  - assert (mentionsFood text) as Hyes by by apply Ht.
    split; [done|]. split; [done|].
    intros contents w' -> _. done.
  - assert (¬ mentionsFood text) as Hno.
    { intros Hyes%Ht. congruence. }
    split; [done|]. split; [done|].
    intros contents w' _ Hne. split; [|done].
    cbn. intros [= <-]. done.
Qed.

(** C10. The constructor never leaves a window of size 0: a memory of 0,
    like a missing one, keeps the default of 10, and any other number is
    taken as it is.  An empty or missing role keeps "AI assistant" and an
    empty or missing API version keeps "2022-12-01". *)
Theorem constructor_defaults (conf : ChatConf World) :
  memory (constructor conf) ≠ 0
  ∧ (conf_memory conf = None ∨ conf_memory conf = Some 0 →
     memory (constructor conf) = 10)
  ∧ (∀ m, conf_memory conf = Some m → m ≠ 0 → memory (constructor conf) = m)
  ∧ (conf_role conf = None ∨ conf_role conf = Some "" →
     role (constructor conf) = "AI assistant")
  ∧ (conf_apiVer conf = None ∨ conf_apiVer conf = Some "" →
     apiVer (constructor conf) = "2022-12-01").
Proof.
  unfold constructor; cbn. unfold orKeep, truthyNum.
  repeat split.
  - destruct (conf_memory conf) as [m|]; [|done].
    destruct (Z.eqb_spec m 0); cbn; [done|done].
  - by intros [-> | ->].
  - intros m -> Hm. by destruct (Z.eqb_spec m 0).
  - by intros [-> | ->].
  - by intros [-> | ->].
Qed.

End Specification.

(** * The properties on concrete runs *)

Lemma history_is_bounded_fifo_witness :
  0 ≤ memory Demo.small ∧ "room1" ≠ "" ∧
  retrievable (clock (world Demo.threeAppends)) "room1"
    (cache Demo.threeAppends)
  = [ {| sender := assistant; text := "two" |};
      {| sender := user; text := "three" |} ].
Proof.
  assert (0 ≤ memory Demo.small) as Hm by (cbn; lia).
  assert ("room1" ≠ "") as Hs by discriminate.
  split; [exact Hm|]. split; [exact Hs|].
  exact (proj2 (proj2 (history_is_bounded_fifo Demo.small "room1" Hm Hs))
           eq_refl [] Demo.fresh user "one" assistant "two" user "three"
           (reaches_fresh _ _ _)).
Defined.

(** C2 as stated fails with a window of 2: the answered question "A" on
    "room1" is followed by "C", and the prompt for "C" has lost the turn
    "A". *)
Lemma round_trip_loses_turn_in_small_window :
  fst (ask Demo.small "A" "room1" noOpts Demo.fresh) = Ok "B"
  ∧ ∃ p, Demo.promptC Demo.small = Ok p
         ∧ ¬ inOrder (Demo.roundTrip (role Demo.small)) p.
Proof.
  split; [by vm_compute|].
  eexists. split; [vm_compute; reflexivity|].
  intros Hin%inOrder_includes_second. vm_compute in Hin. discriminate.
Qed.

Lemma round_trip_prompt_witness :
  ∃ p, Demo.promptC Demo.plain = Ok p
       ∧ inOrder (Demo.roundTrip (role Demo.plain)) p.
Proof.
  eexists. split; [vm_compute; reflexivity|].
  eapply (round_trip_prompt Demo.plain "room1" "A" "B" "C" noOpts Demo.fresh
            (world (Demo.afterA Demo.plain))).
  - cbn. lia.
  - discriminate.
  - discriminate.
  - vm_compute. reflexivity.
  - vm_compute. discriminate.
  - vm_compute. discriminate.
  - vm_compute. reflexivity.
  - vm_compute. reflexivity.
Defined.

Lemma completion_failure_throws_witness :
  fst (ask Demo.plain "A" "room1" noOpts Demo.failing)
  = Throw (Error "OpenAI API error: Service Unavailable (503)")
  ∧ history "room1" (snd (ask Demo.plain "A" "room1" noOpts Demo.failing))
    = [ {| sender := user; text := "A" |} ].
Proof.
  edestruct (completion_failure_throws Demo.plain "A" "room1" noOpts
               Demo.failing) as [Hask Hcache].
  - vm_compute. reflexivity.
  - vm_compute. reflexivity.
  - vm_compute. reflexivity.
  - vm_compute. discriminate.
  - split; [by rewrite Hask|]. unfold history. by rewrite Hcache.
Defined.

Lemma empty_answer_not_recorded_witness :
  fst (ask Demo.plain "A" "room1" noOpts Demo.silent) = Ok ""
  ∧ fst (ask Demo.plain "A" "room1" noOpts Demo.fresh) = Ok "B".
Proof.
  split.
  - edestruct (empty_answer_not_recorded Demo.plain "A" "room1" noOpts
                 Demo.silent) as [Hask _].
    + vm_compute. reflexivity.
    + vm_compute. reflexivity.
    + vm_compute. reflexivity.
    + reflexivity.
    + reflexivity.
    + exact Hask.
  - edestruct (empty_answer_not_recorded Demo.plain "A" "room1" noOpts
                 Demo.fresh) as [Hask _].
    + vm_compute. reflexivity.
    + vm_compute. reflexivity.
    + vm_compute. reflexivity.
    + reflexivity.
    + reflexivity.
    + exact Hask.
Defined.

(** C6 as stated fails: with a fact source that is down the question is not
    answered, although the same question without any facts is. *)
Lemma enrichment_failure_is_not_tolerated :
  fst (ask Demo.brittle "What to eat?" "" noOpts Demo.fresh)
  = Throw (Error "knowledge base unavailable")
  ∧ fst (ask Demo.plain "What to eat?" "" noOpts Demo.fresh) = Ok "B".
Proof. split; by vm_compute. Qed.

Lemma enrichment_failure_aborts_witness :
  ask Demo.brittle "What to eat?" "room1" noOpts Demo.fresh
  = (Throw (Error "knowledge base unavailable"),
     afterCall (EvEnrich "query")
       (world (snd (ask Demo.brittle "What to eat?" "room1" noOpts Demo.fresh)))
       (snd (extractSearchQuery Demo.brittle "What to eat?"
               (snd (setMessage Demo.brittle "room1" user "What to eat?"
                       Demo.fresh))))).
Proof.
  edestruct (enrichment_failure_aborts Demo.brittle "What to eat?" "room1"
               noOpts Demo.fresh) as [Hask _].
  - right. cbn. lia.
  - vm_compute. reflexivity.
  - vm_compute. reflexivity.
  - reflexivity.
  - vm_compute. reflexivity.
  - rewrite Hask. vm_compute. reflexivity.
Defined.

Lemma system_segment_not_closed_witness :
  ∃ p, Demo.promptC Demo.plain = Ok p
       ∧ ∃ facts, p = promptText (role Demo.plain) facts
           [ {| sender := user; text := "A" |};
             {| sender := assistant; text := "B" |};
             {| sender := user; text := "C" |} ].
Proof.
  eexists. split; [vm_compute; reflexivity|].
  eapply (proj2 (system_segment_not_closed Demo.plain _)
            (snd (setMessage Demo.plain "room1" user "C"
                    (withWorld (world (Demo.afterA Demo.plain))
                       (Demo.afterA Demo.plain))))).
  vm_compute. reflexivity.
Defined.

Lemma enrichment_query_witness :
  fst (extractSearchQuery Demo.server "What to eat?"
         (snd (setMessage Demo.server "room1" user "What to eat?"
                 Demo.declining)))
  = Ok ""
  ∧ last (trace (snd (buildPrompt Demo.server
                        [ {| sender := user; text := "What to eat?" |} ]
                        (snd (setMessage Demo.server "room1" user
                                "What to eat?" Demo.declining)))))
    = Some (EvEnrich "What to eat?").
Proof.
  edestruct (enrichment_query Demo.server "What to eat?" "room1"
               Demo.declining [ {| sender := user; text := "What to eat?" |} ]
               (snd (setMessage Demo.server "room1" user "What to eat?"
                       Demo.declining))) as (Hmarked & _ & Hcalled & _).
  - right. cbn. lia.
  - vm_compute. reflexivity.
  - vm_compute. reflexivity.
  - reflexivity.
  - reflexivity.
  - split; [exact (f_equal fst (Hmarked eq_refl))|].
    rewrite (Hcalled getFacts eq_refl). vm_compute. reflexivity.
Defined.

Lemma getFacts_keywords_witness :
  mentionsFood "Any good CUISINE nearby?"
  ∧ fst (getFacts "Any good CUISINE nearby?" (Sim.start []))
    = Ok "Marseoni is a cuisine of Mars.".
Proof.
  assert (mentionsFood "Any good CUISINE nearby?") as Hyes.
  { right. right. by exists "Any good ", "CUISINE", " nearby?". }
  split; [exact Hyes|].
  by rewrite (proj1 (getFacts_keywords "Any good CUISINE nearby?" (Sim.start []))
                Hyes).
Defined.

Lemma constructor_defaults_witness :
  conf_memory (Demo.conf (Some 0) None) = Some 0
  ∧ memory (constructor (Demo.conf (Some 0) None)) = 10.
Proof.
  split; [reflexivity|].
  apply (proj1 (proj2 (constructor_defaults (Demo.conf (Some 0) None)))).
  by right.
Defined.

(** * Further properties of the code *)

Section Further.

Context {World : Type} `{Environment World}.
Implicit Types (ch : Chat World) (st : State World).

(** ** Scopes do not touch each other *)

Lemma get_lookup_other now key data k :
  k ≠ key → snd (NodeCache.get now key data) !! k = data !! k.
Proof.
  intros Hk. unfold NodeCache.get. destruct (data !! key) as [e|]; [|done].
  destruct (NodeCache.expired now e); [|done]. cbn. by apply lookup_delete_ne.
Qed.

Lemma setMessage_lookup_other ch scope sender text st k :
  k ≠ scope →
  cache (snd (setMessage ch scope sender text st)) !! k = cache st !! k.
Proof.
  intros Hk. destruct (decide (scope = "")) as [->|Hs].
  - by rewrite setMessage_stateless.
  - rewrite setMessage_scoped by done. cbn. unfold NodeCache.set.
    rewrite lookup_insert_ne by done. by apply get_lookup_other.
Qed.

(** X1. An [ask] on one scope leaves the entry of every other scope as it
    was: its messages and its time of expiry. *)
Theorem ask_leaves_other_scopes ch text dlg opts st k :
  k ≠ dlg →
  cache (snd (ask ch text dlg opts st)) !! k = cache st !! k.
Proof.
  intros Hk.
  pose proof (setMessage_lookup_other ch dlg user text st k Hk) as H1.
  destruct (ask_cache ch text dlg opts st)
    as (ms & st1 & E & [[_ Hc]|(a & st3 & _ & E3 & ->)]).
  all: rewrite E in H1; cbn in H1.
  - by rewrite Hc.
  - rewrite setMessage_lookup_other by done. by rewrite E3.
Qed.

(** ** What the cache holds *)

Lemma setMessage_no_empty_key ch scope sender text st :
  cache st !! "" = None →
  cache (snd (setMessage ch scope sender text st)) !! "" = None.
Proof.
  intros Hn. destruct (decide (scope = "")) as [->|Hs].
  - by rewrite setMessage_stateless.
  - by rewrite setMessage_lookup_other.
Qed.

Lemma window_nonempty size l m : 1 ≤ size → window size (l ++ [m]) ≠ [].
Proof.
  intros Hs. destruct (window_keeps_end size (l ++ [m]) [m]) as [k ->].
  - cbn. lia.
  - by eexists.
  - by destruct k.
Qed.

Lemma setMessage_no_empty_history ch scope sender text st :
  1 ≤ memory ch →
  (∀ k e, cache st !! k = Some e → NodeCache.v e ≠ []) →
  ∀ k e, cache (snd (setMessage ch scope sender text st)) !! k = Some e →
         NodeCache.v e ≠ [].
Proof.
  intros Hm Hinv k e. destruct (decide (scope = "")) as [->|Hs].
  - rewrite setMessage_stateless. apply Hinv.
  - destruct (decide (k = scope)) as [->|Hk].
    + rewrite setMessage_entry by done. intros [= <-]. cbn.
      rewrite setMessage_history by done. by apply window_nonempty.
    + rewrite setMessage_lookup_other by done. apply Hinv.
Qed.

Lemma running_cache_inv ch st :
  running ch st →
  cache st !! "" = None
  ∧ (1 ≤ memory ch → ∀ k e, cache st !! k = Some e → NodeCache.v e ≠ []).
Proof.
  induction 1 as [w|st w _ IH|st text dlg opts _ [IH1 IH2]].
  - split; [done|]. intros _ k e Hk. cbn in Hk. by rewrite lookup_empty in Hk.
  - done.
  - destruct (ask_cache ch text dlg opts st)
      as (ms & st1 & E & [[_ Hc]|(a & st3 & _ & E3 & ->)]).
    + rewrite Hc. replace st1 with (snd (setMessage ch dlg user text st))
        by by rewrite E.
      split; [by apply setMessage_no_empty_key|].
      intros Hm. by apply setMessage_no_empty_history; [|apply IH2].
    + assert (cache st3 = cache (snd (setMessage ch dlg user text st))) as E3'
        by by rewrite E.
      split.
      * apply setMessage_no_empty_key. rewrite E3'.
        by apply setMessage_no_empty_key.
      * intros Hm. apply setMessage_no_empty_history; [done|]. rewrite E3'.
        by apply setMessage_no_empty_history; [|apply IH2].
Qed.

(** X2. Whatever calls were made, the cache of a chat never holds an
    entry under the empty scope, and with a window of at least one entry it
    never holds an empty history. *)
Theorem running_cache_entries ch st :
  running ch st →
  cache st !! "" = None
  ∧ (1 ≤ memory ch → ∀ k e, cache st !! k = Some e → NodeCache.v e ≠ []).
Proof. apply running_cache_inv. Qed.

Lemma running_bounded ch st :
  0 ≤ memory ch → running ch st → bounded (memory ch) (cache st).
Proof.
  intros Hm. induction 1 as [w|st w _ IH|st text dlg opts _ IH].
  - intros k e Hk. cbn in Hk. by rewrite lookup_empty in Hk.
  - done.
  - by apply ask_bounded.
Qed.

(** ** What an [ask] leaves in the history *)

(** X3. There is no rollback: when [ask] on a named scope fails, for
    whatever reason, the question stays in the history as its last entry
    (the window holding at least one entry). *)
Theorem failed_ask_keeps_question ch text dlg opts st e :
  dlg ≠ "" → 1 ≤ memory ch →
  fst (ask ch text dlg opts st) = Throw e →
  last (history dlg (snd (ask ch text dlg opts st)))
  = Some {| sender := user; text := text |}.
Proof.
  intros Hs Hm Hr.
  pose proof (setMessage_last ch dlg user text st Hs Hm) as Hl.
  destruct (ask_cache ch text dlg opts st)
    as (ms & st1 & E & [[_ Hc]|(a & st3 & Hsaid & _)]).
  - rewrite E in Hl. unfold history in *. by rewrite Hc.
  - by rewrite Hr in Hsaid.
Qed.

(** X4. When [ask] on a named scope returns an answer that is not empty,
    the window holds at least two entries, and the remote calls took no
    longer than the time to live, the history ends with the question
    followed by the answer. *)
Theorem answered_ask_records_both ch text dlg opts st answer :
  dlg ≠ "" → 2 ≤ memory ch → answer ≠ "" →
  fst (ask ch text dlg opts st) = Ok answer →
  clock (world (snd (ask ch text dlg opts st)))
    ≤ clock (world st) + NodeCache.stdTTL * 1000 →
  [ {| sender := user; text := text |};
    {| sender := assistant; text := answer |} ]
    `suffix_of` history dlg (snd (ask ch text dlg opts st)).
Proof.
  intros Hs Hm Ha Hr Ht.
  destruct (ask_answered _ _ _ _ _ _ Hr Ha) as (sta & Hca & Hst).
  set (Q := {| sender := user; text := text |}).
  set (A := {| sender := assistant; text := answer |}).
  set (st1 := snd (setMessage ch dlg user text st)) in *.
  assert ([Q] `suffix_of` history dlg st1) as HQ.
  { subst st1. rewrite setMessage_history by done.
    apply window_keeps_end; [cbn; lia|]. by eexists. }
  pose proof (setMessage_entry ch dlg user text st Hs) as He1. fold st1 in He1.
  assert (world (snd (ask ch text dlg opts st)) = world sta) as Hw.
  { rewrite Hst. apply setMessage_world. }
  rewrite Hst, setMessage_history by done. rewrite Hca.
  rewrite (retrievable_fresh _ _ _ _ He1); [|cbn; rewrite <- Hw; exact Ht].
  apply window_keeps_end; [cbn; lia|]. by apply (suffix_snoc [Q] _ A).
Qed.

(** ** The time to live *)

(** X5. The time to live runs from the last append and covers the whole
    history of the scope: up to 30 minutes after a [setMessage] all of it is
    handed out, later none of it. *)
Theorem history_lives_from_last_append ch scope sender text st now :
  scope ≠ "" → 0 ≤ clock (world st) →
  let st' := snd (setMessage ch scope sender text st) in
  (now ≤ clock (world st) + 1800000 →
   retrievable now scope (cache st') = history scope st')
  ∧ (clock (world st) + 1800000 < now →
     retrievable now scope (cache st') = []).
Proof.
  intros Hs Hc st'.
  pose proof (setMessage_entry ch scope sender text st Hs) as He. fold st' in He.
  split.
  - intros Hnow. by rewrite (retrievable_fresh _ _ _ _ He).
  - intros Hnow. unfold retrievable, NodeCache.get. rewrite He.
    unfold NodeCache.expired. cbn [NodeCache.t].
    change (NodeCache.livetime (clock (world st)))
      with (clock (world st) + 1800000).
    destruct (Z.eqb_spec (clock (world st) + 1800000) 0); [lia|].
    destruct (Z.ltb_spec (clock (world st) + 1800000) now); [done|lia].
Qed.

(** X6. Once the entry of a scope is past its time, the next append starts
    the history afresh: the list it returns and stores holds the new entry
    alone. *)
Theorem expired_history_starts_afresh ch scope sender text st e :
  scope ≠ "" → 1 ≤ memory ch →
  cache st !! scope = Some e →
  NodeCache.t e ≠ 0 → NodeCache.t e < clock (world st) →
  fst (setMessage ch scope sender text st)
    = Ok [ {| sender := sender; text := text |} ]
  ∧ history scope (snd (setMessage ch scope sender text st))
    = [ {| sender := sender; text := text |} ].
Proof.
  intros Hs Hm He Ht Hnow.
  assert (retrievable (clock (world st)) scope (cache st) = []) as Hr.
  { unfold retrievable, NodeCache.get. rewrite He. unfold NodeCache.expired.
    destruct (Z.eqb_spec (NodeCache.t e) 0); [done|].
    by destruct (Z.ltb_spec (NodeCache.t e) (clock (world st))); [|lia]. }
  rewrite setMessage_history by done. rewrite setMessage_scoped by done.
  cbn [fst]. rewrite Hr. cbn [app].
  by rewrite window_fits by (cbn; lia).
Qed.

(** ** The derived query *)

(** X7. A query that [extractSearchQuery] returns holds neither of the two
    marker phrases. *)
Theorem derived_query_is_clean ch text st q st' :
  extractSearchQuery ch text st = (Ok q, st') →
  includes sorry q = false ∧ includes notValid q = false.
Proof.
  unfold extractSearchQuery, bind, external.
  destruct (createCompletion _ _ _ _) as [[res|e] w]; [|done].
  destruct (negb _); [done|].
  unfold firstChoiceText. destruct (choices res) as [|c cs]; [done|].
  assert (∀ a : string,
            (if includes sorry a || includes notValid a
             then ret "" else ret a)
              {| cache := cache st; world := w;
                 trace := trace st ++
                   [EvCreateCompletion (basePath ch) (extractRequest ch text)
                      (clientOpts ch)] |} = (Ok q, st') →
            includes sorry q = false ∧ includes notValid q = false) as Hk.
  { intros a. destruct (_ || _) eqn:E.
    - by intros [= <- _].
    - intros [= <- _]. by apply orb_false_iff. }
  destruct (choice_text c) as [s|]; [destruct (truthy s)|];
    unfold ret at 1; apply Hk.
Qed.

(** ** Texts are not escaped *)

(** X8. A text that holds the delimiters reads, in the prompt, as a turn
    of its own: one entry whose text closes its turn and opens another one
    gives the same prompt as the two entries. *)
Theorem forged_turn_reads_as_turn role facts pre post s1 a s2 b :
  promptText role facts
    (pre ++ {| sender := s1; text := forged a s2 b |} :: post)
  = promptText role facts
      (pre ++ {| sender := s1; text := a |} :: {| sender := s2; text := b |}
           :: post).
Proof.
  rewrite !promptText_parts, !turns_app. cbn [turns]. unfold turn, forged.
  cbn. by rewrite !str_app_assoc.
Qed.

(** ** A reply without a choice *)

(** X9. When the completion call for the answer comes back with status 200
    and no choice at all, [ask] throws a [TypeError]; the cache is left as
    the append of the user entry left it. *)
Theorem empty_choices_throw ch text dlg opts st messages st1 p st2 res w3 :
  setMessage ch dlg user text st = (Ok messages, st1) →
  buildPrompt ch messages st1 = (Ok p, st2) →
  createCompletion (basePath ch) (askRequest ch opts p) (clientOpts ch)
    (world st2) = (Ok res, w3) →
  status res = 200 →
  choices res = [] →
  ask ch text dlg opts st
  = (Throw (TypeError "Cannot read properties of undefined (reading 'text')"),
     afterCall (answerCall ch opts p) w3 st2)
  ∧ cache (snd (ask ch text dlg opts st)) = cache st1.
Proof.
  intros Hset Hbuild Hcall Hstatus Hchoices.
  assert (ask ch text dlg opts st
          = (Throw (TypeError
                      "Cannot read properties of undefined (reading 'text')"),
             afterCall (answerCall ch opts p) w3 st2)) as ->.
  { unfold ask, bind. rewrite Hset, Hbuild. unfold external. rewrite Hcall.
    rewrite Hstatus. cbn [Z.eqb Pos.eqb negb].
    unfold firstChoiceText. by rewrite Hchoices. }
  split; [done|]. cbn.
  pose proof (framed_buildPrompt ch messages st1) as Hf.
  by rewrite Hbuild in Hf.
Qed.

(** ** A window below one *)

Lemma window_below_one size m : size < 1 → window size ([] ++ [m]) = [].
Proof.
  intros Hs. unfold window. cbn [app length].
  by destruct (Z.ltb_spec size (Z.of_nat 1)); [|lia].
Qed.

Lemma running_nothing_kept ch st :
  memory ch < 1 → running ch st →
  ∀ k e, cache st !! k = Some e → NodeCache.v e = [].
Proof.
  intros Hm.
  assert (∀ st dlg sender text,
            (∀ k e, cache st !! k = Some e → NodeCache.v e = []) →
            ∀ k e, cache (snd (setMessage ch dlg sender text st)) !! k = Some e →
                   NodeCache.v e = []) as Hstep.
  { intros st0 dlg sender text Hinv k e.
    destruct (decide (dlg = "")) as [->|Hs].
    { rewrite setMessage_stateless. apply Hinv. }
    destruct (decide (k = dlg)) as [->|Hk].
    - rewrite setMessage_entry by done. intros [= <-]. cbn.
      rewrite setMessage_history by done.
      destruct (retrievable_cases (clock (world st0)) dlg (cache st0))
        as [-> | ->].
      + unfold stored. destruct (cache st0 !! dlg) as [e0|] eqn:E0.
        * rewrite (Hinv _ _ E0). by apply window_below_one.
        * by apply window_below_one.
      + by apply window_below_one.
    - rewrite setMessage_lookup_other by done. apply Hinv. }
  induction 1 as [w|st w _ IH|st text dlg opts _ IH].
  - intros k e Hk. cbn in Hk. by rewrite lookup_empty in Hk.
  - done.
  - destruct (ask_cache ch text dlg opts st)
      as (ms & st1 & E & [[_ Hc]|(a & st3 & _ & E3 & ->)]).
    + rewrite Hc. replace st1 with (snd (setMessage ch dlg user text st))
        by by rewrite E.
      by apply Hstep.
    + apply Hstep. rewrite E3.
      replace st1 with (snd (setMessage ch dlg user text st)) by by rewrite E.
      by apply Hstep.
Qed.

(** X10. With a window below one entry no question on a named scope is
    ever answered: the entry just pushed is shifted out again, [ask] throws
    a [TypeError] and makes no call at all. *)
Theorem window_below_one_never_answers ch text dlg opts st :
  memory ch < 1 → dlg ≠ "" → running ch st →
  fst (ask ch text dlg opts st)
    = Throw (TypeError "Cannot read properties of undefined (reading 'text')")
  ∧ trace (snd (ask ch text dlg opts st)) = trace st
  ∧ world (snd (ask ch text dlg opts st)) = world st.
Proof.
  intros Hm Hs Hrun.
  pose proof (running_nothing_kept ch st Hm Hrun) as Hinv.
  assert (retrievable (clock (world st)) dlg (cache st) = []) as Hr.
  { destruct (retrievable_cases (clock (world st)) dlg (cache st))
      as [-> | ->]; [|done].
    unfold stored. destruct (cache st !! dlg) as [e|] eqn:E; [eauto|done]. }
  assert (ask ch text dlg opts st
          = (Throw (TypeError
                      "Cannot read properties of undefined (reading 'text')"),
             snd (setMessage ch dlg user text st))) as ->.
  { unfold ask, bind at 1. rewrite setMessage_scoped by done.
    rewrite Hr. unfold window. cbn [length app].
    by destruct (Z.ltb_spec (memory ch) (Z.of_nat 1)); [|lia]. }
  split; [done|]. cbn [snd].
  destruct (setMessage_world ch dlg user text st) as [-> ->]. done.
Qed.

(** ** The calls of an [ask] *)

Lemma setMessage_last_or_none ch scope sender text st :
  fst (setMessage ch scope sender text st) = Ok []
  ∨ ∃ messages,
      fst (setMessage ch scope sender text st) = Ok messages
      ∧ last messages = Some {| sender := sender; text := text |}.
Proof.
  destruct (decide (scope = "")) as [->|Hs].
  { rewrite setMessage_stateless. right. by eexists. }
  rewrite setMessage_scoped by done. cbn [fst]. unfold window.
  destruct (_ <? _).
  - destruct (retrievable _ _ _) as [|x l]; [by left|].
    right. eexists. split; [done|]. cbn [app tail]. apply last_snoc.
  - right. eexists. split; [done|]. apply last_snoc.
Qed.

Lemma prefix_of_planned_nil ch text opts : [] `prefix_of` plannedCalls ch text opts "" "".
Proof. apply prefix_nil. Qed.

Lemma extractSearchQuery_trace ch text st :
  trace (snd (extractSearchQuery ch text st))
  = trace st ++ [ extractCall ch text ].
Proof.
  unfold extractSearchQuery, bind, external, extractCall.
  destruct (createCompletion _ _ _ _) as [[res|e] w]; [|done].
  destruct (negb _); [done|].
  unfold firstChoiceText. destruct (choices res) as [|c cs]; [done|].
  destruct (choice_text c) as [s|]; unfold ret at 1; by destruct (_ || _).
Qed.

(** The calls of [buildPrompt]: the extraction call, then the callback if
    there is one. *)
Lemma buildPrompt_calls ch messages st who t :
  last messages = Some {| sender := who; text := t |} →
  ∃ evs arg,
    trace (snd (buildPrompt ch messages st)) = trace st ++ evs
    ∧ (evs = [ extractCall ch t ]
       ∨ enrich ch ≠ None ∧ evs = [ extractCall ch t; EvEnrich arg ])
    ∧ (∀ p, fst (buildPrompt ch messages st) = Ok p →
            evs = extractCall ch t
                  :: match enrich ch with
                     | Some _ => [ EvEnrich arg ]
                     | None => []
                     end).
Proof.
  intros Hlast. remember (buildPrompt ch messages st) as R eqn:HR.
  unfold buildPrompt, bind at 1, lastText in HR. rewrite Hlast in HR.
  unfold ret at 1 in HR. cbn -[extractSearchQuery bind external] in HR.
  pose proof (extractSearchQuery_trace ch t st) as Hq.
  unfold bind at 1 in HR.
  destruct (extractSearchQuery ch t st) as [[q|e] st2]; cbn in Hq.
  2: { subst R. exists [extractCall ch t], "". cbn. split; [done|].
       split; [by left|done]. }
  unfold bind in HR. destruct (enrich ch) as [f|].
  - set (arg := if truthy q then q else t) in *.
    exists [extractCall ch t; EvEnrich arg], arg.
    unfold external in HR.
    destruct (f arg (world st2)) as [[facts|e] w]; subst R; cbn.
    all: rewrite Hq, <- (assoc (++)); cbn.
    all: split; [done|]; split; [by right|done].
  - subst R. exists [extractCall ch t], "". cbn. split; [done|].
    split; [by left|done].
Qed.

(** After the prompt, the call for the answer is the only call. *)
Lemma ask_after_prompt ch text dlg opts st messages st1 :
  setMessage ch dlg user text st = (Ok messages, st1) →
  match buildPrompt ch messages st1 with
  | (Ok p, st2) =>
      trace (snd (ask ch text dlg opts st))
      = trace st2 ++ [ answerCall ch opts p ]
  | (Throw e, st2) => ask ch text dlg opts st = (Throw e, st2)
  end.
Proof.
  intros E. remember (ask ch text dlg opts st) as R eqn:HR.
  unfold ask, bind in HR. rewrite E in HR.
  destruct (buildPrompt ch messages st1) as [[p|e] st2]; [|done].
  unfold external in HR. unfold answerCall.
  destruct (createCompletion _ _ _ _) as [[res|e] w3]; [|by subst R].
  destruct (negb _); [by subst R|].
  unfold firstChoiceText in HR.
  destruct (choices res) as [|c cs]; [by subst R|].
  destruct (choice_text c) as [[|a s]|]; [by subst R| |by subst R].
  cbn -[setMessage] in HR.
  match type of HR with
  | context [setMessage ch dlg assistant ?t ?st3] =>
      destruct (setMessage_world ch dlg assistant t st3) as [_ Hw];
      destruct (setMessage_returns ch dlg assistant t st3) as [ms Hms];
      destruct (setMessage ch dlg assistant t st3) as [r st4]
  end.
  cbn in Hms, Hw. subst r R. by cbn.
Qed.

(** The calls one [ask] makes are a first stretch of the planned ones, and
    all of them when it returns. *)
Lemma ask_calls ch text dlg opts st :
  ∃ evs arg p,
    trace (snd (ask ch text dlg opts st)) = trace st ++ evs
    ∧ evs `prefix_of` plannedCalls ch text opts arg p
    ∧ (∀ a, fst (ask ch text dlg opts st) = Ok a →
            evs = plannedCalls ch text opts arg p).
Proof.
  destruct (setMessage_world ch dlg user text st) as [_ Htr].
  pose proof (setMessage_last_or_none ch dlg user text st) as Hl.
  destruct (setMessage ch dlg user text st) as [r st1] eqn:E.
  cbn in Htr, Hl.
  pose proof (ask_after_prompt ch text dlg opts st) as Hafter.
  destruct Hl as [->|(ms & -> & Hlast)].
  { specialize (Hafter _ _ E). cbn in Hafter. rewrite Hafter. cbn.
    exists [], "", "". rewrite Htr, app_nil_r.
    split; [done|]. split; [apply prefix_nil|done]. }
  specialize (Hafter _ _ E).
  destruct (buildPrompt_calls ch ms st1 _ _ Hlast)
    as (evs & arg & Hb & Hshape & Hfull).
  destruct (buildPrompt ch ms st1) as [[p|e] st2]; cbn in Hb, Hfull.
  - exists (evs ++ [answerCall ch opts p]), arg, p.
    rewrite Hafter, Hb, Htr, <- app_assoc.
    specialize (Hfull p eq_refl). subst evs. unfold plannedCalls.
    split; [done|]. by split.
  - rewrite Hafter. cbn. exists evs, arg, "". rewrite Hb, Htr.
    split; [done|]. split; [|done]. unfold plannedCalls.
    destruct Hshape as [->|[Hsome ->]].
    + by eexists.
    + destruct (enrich ch); [|done]. by eexists.
Qed.

(** X11. The calls of one [ask] are, in this order, the extraction call,
    the callback when one is configured, and the call for the answer; a
    failure stops the sequence where it happens, nothing is called twice,
    and an [ask] that returns has made all of them. *)
Theorem ask_calls_in_order ch text dlg opts st :
  ∃ evs arg p,
    trace (snd (ask ch text dlg opts st)) = trace st ++ evs
    ∧ evs `prefix_of` plannedCalls ch text opts arg p
    ∧ (∀ a, fst (ask ch text dlg opts st) = Ok a →
            evs = plannedCalls ch text opts arg p)
    ∧ (length evs ≤ 3)%nat.
Proof.
  destruct (ask_calls ch text dlg opts st) as (evs & arg & p & Ht & Hp & Hf).
  exists evs, arg, p. split; [done|]. split; [done|]. split; [done|].
  apply prefix_length in Hp. unfold plannedCalls in Hp.
  destruct (enrich ch); cbn in Hp; lia.
Qed.

(** X12. Whatever options the caller passes, every remote call of an
    [ask] goes to the deployment of the chat, under its key and API version,
    for its model and with the stop sequence "<|im_end|>". *)
Theorem ask_calls_are_addressed ch text dlg opts st :
  ∃ evs,
    trace (snd (ask ch text dlg opts st)) = trace st ++ evs
    ∧ Forall (addressed ch) evs.
Proof.
  destruct (ask_calls ch text dlg opts st)
    as (evs & arg & p & Ht & [k Hp] & _).
  exists evs. split; [done|].
  assert (Forall (addressed ch) (plannedCalls ch text opts arg p)) as Hall.
  { unfold plannedCalls. apply Forall_cons. split; [done|].
    apply Forall_app. split; [by destruct (enrich ch); repeat constructor|].
    by repeat constructor. }
  rewrite Hp in Hall. by apply Forall_app in Hall as [? _].
Qed.

End Further.

(** ** Reading numbers *)










(** ** The configuration *)



(** ** The sample server *)

Section FurtherServer.

Context {World : Type} `{Environment World}.
Implicit Types (st : State World).

Lemma serving_running config st :
  serving config st → running (ai config) st.
Proof.
  induction 1 as [w|st w _ IH|st body _ IH].
  - apply running_fresh.
  - by apply running_idle.
  - by apply running_ask.
Qed.

(** X15. An empty OPENAI_MODEL goes unnoticed when the server starts: the
    configuration is loaded, the chat has no model, and its requests go to
    the deployment named "undefined". *)
Theorem empty_model_goes_unnoticed (processEnv : gmap string string) u k :
  processEnv !! "OPENAI_URL" = Some u →
  processEnv !! "OPENAI_KEY" = Some k →
  processEnv !! "OPENAI_MODEL" = Some "" →
  ∃ c, Config.config processEnv = inr c
       ∧ model (ai (World:=World) c) = None
       ∧ basePath (ai (World:=World) c)
         = u +:+ "/openai/deployments/undefined"
       ∧ (∀ text, req_model (extractRequest (ai (World:=World) c) text) = None)
       ∧ (∀ opts p,
            req_model (askRequest (ai (World:=World) c) opts p) = None).
Proof.
  intros Hu Hk Hm. unfold Config.config, Config.parse.
  rewrite Hu, Hk, Hm. eexists. split; [done|]. by cbn.
Qed.

(** X16. Whatever requests the sample server has served, no scope has more
    than 5 entries in its history and nothing is kept under the empty
    scope; a request without [dlg] leaves the cache as it was. *)
Theorem server_keeps_five_entries config st :
  serving config st →
  (∀ scope, (length (history scope st) ≤ 5)%nat)
  ∧ cache st !! "" = None
  ∧ (∀ body, body_dlg body = None →
             cache (snd (askRoute config body st)) = cache st).
Proof.
  intros Hrun%serving_running. split; [|split].
  - intros scope.
    assert (0 ≤ memory (ai (World:=World) config)) as Hm by done.
    pose proof (running_bounded _ _ Hm Hrun) as Hb.
    pose proof (bounded_history _ scope st Hm Hb) as Hl.
    change (memory (ai config)) with 5 in Hl. lia.
  - by apply running_cache_inv in Hrun as [? _].
  - intros body Hdlg. unfold askRoute. rewrite Hdlg. cbn [default].
    pose proof (oblivious_ask_stateless (ai config) (body_text body) noOpts
                  (cache st) st) as Ho.
    replace (withCache (cache st) st) with st in Ho by by destruct st.
    by rewrite Ho at 1.
Qed.

End FurtherServer.

(** * The further properties on concrete runs *)

Lemma ask_leaves_other_scopes_witness :
  cache (snd (ask Demo.plain "C" "room2" noOpts (Demo.afterA Demo.plain)))
    !! "room1"
  = cache (Demo.afterA Demo.plain) !! "room1".
Proof.
  apply (ask_leaves_other_scopes Demo.plain "C" "room2" noOpts
           (Demo.afterA Demo.plain) "room1").
  discriminate.
Defined.

Lemma running_cache_entries_witness :
  cache (Demo.afterA Demo.plain) !! "" = None.
Proof.
  exact (proj1 (running_cache_entries Demo.plain (Demo.afterA Demo.plain)
                  (running_ask _ _ "A" "room1" noOpts
                     (running_fresh _ _)))).
Defined.

Lemma failed_ask_keeps_question_witness :
  last (history "room1" (snd (ask Demo.plain "A" "room1" noOpts Demo.failing)))
  = Some {| sender := user; text := "A" |}.
Proof.
  eapply (failed_ask_keeps_question Demo.plain "A" "room1" noOpts Demo.failing).
  - discriminate.
  - cbn. lia.
  - vm_compute. reflexivity.
Defined.

Lemma answered_ask_records_both_witness :
  [ {| sender := user; text := "A" |};
    {| sender := assistant; text := "B" |} ]
    `suffix_of` history "room1" (Demo.afterA Demo.plain).
Proof.
  apply (answered_ask_records_both Demo.plain "A" "room1" noOpts Demo.fresh "B").
  - discriminate.
  - cbn. lia.
  - discriminate.
  - vm_compute. reflexivity.
  - vm_compute. discriminate.
Defined.

Lemma history_lives_from_last_append_witness :
  retrievable 1700001800000 "room1"
    (cache (snd (setMessage Demo.plain "room1" user "A" Demo.fresh)))
  = history "room1" (snd (setMessage Demo.plain "room1" user "A" Demo.fresh)).
Proof.
  apply (history_lives_from_last_append Demo.plain "room1" user "A" Demo.fresh
           1700001800000).
  - discriminate.
  - vm_compute. discriminate.
  - vm_compute. discriminate.
Defined.

Lemma expired_history_starts_afresh_witness :
  fst (setMessage Demo.plain "room1" user "C" Demo2.anHourLater)
  = Ok [ {| sender := user; text := "C" |} ].
Proof.
  eapply (proj1 (expired_history_starts_afresh Demo.plain "room1" user "C"
                   Demo2.anHourLater _ _ _ _ _ _)).
  Unshelve.
  - exact {| NodeCache.v := [ {| sender := user; text := "A" |};
                              {| sender := assistant; text := "B" |} ];
             NodeCache.t := 1700001802000 |}.
  - discriminate.
  - cbn. lia.
  - vm_compute. reflexivity.
  - vm_compute. discriminate.
  - vm_compute. reflexivity.
Defined.

Lemma derived_query_is_clean_witness :
  includes sorry "query" = false ∧ includes notValid "query" = false.
Proof.
  eapply (derived_query_is_clean Demo.plain "A"
            (snd (setMessage Demo.plain "room1" user "A" Demo.fresh))).
  vm_compute. reflexivity.
Defined.

Lemma empty_choices_throw_witness :
  fst (ask Demo.plain "A" "room1" noOpts Demo2.choiceless)
  = Throw (TypeError "Cannot read properties of undefined (reading 'text')").
Proof.
  edestruct (empty_choices_throw Demo.plain "A" "room1" noOpts
               Demo2.choiceless) as [Hask _].
  - vm_compute. reflexivity.
  - vm_compute. reflexivity.
  - vm_compute. reflexivity.
  - reflexivity.
  - reflexivity.
  - by rewrite Hask.
Defined.

Lemma window_below_one_never_answers_witness :
  memory Demo2.upsideDown < 1
  ∧ fst (ask Demo2.upsideDown "A" "room1" noOpts Demo.fresh)
    = Throw (TypeError "Cannot read properties of undefined (reading 'text')").
Proof.
  assert (memory Demo2.upsideDown < 1) as Hm by (cbn; lia).
  split; [exact Hm|].
  apply (window_below_one_never_answers Demo2.upsideDown "A" "room1" noOpts
           Demo.fresh Hm).
  - discriminate.
  - apply running_fresh.
Defined.


Lemma empty_model_goes_unnoticed_witness :
  ∃ c, Config.config Demo2.modelless = inr c
       ∧ model (ai (World:=Sim.world) c) = None.
Proof.
  destruct (empty_model_goes_unnoticed (World:=Sim.world) Demo2.modelless
              "https://contoso.openai.azure.com"
              "5f121687ba674163997c4c6cb781a1a2")
    as (c & Hc & Hm & _).
  - vm_compute. reflexivity.
  - vm_compute. reflexivity.
  - vm_compute. reflexivity.
  - by exists c.
Defined.

Lemma server_keeps_five_entries_witness :
  (length (history "room1" Demo2.served) ≤ 5)%nat.
Proof.
  apply (proj1 (server_keeps_five_entries Demo2.sample Demo2.served
                  (serving_ask _ _ _ (serving_fresh _ _)))).
Defined.

(** * The size of a prompt *)

Section FurtherPrompt.

Context {World : Type} `{Environment World}.
Implicit Types (ch : Chat World) (st : State World).

(** X17. With a window of at least one entry, the prompt that [ask] puts
    together holds one turn per kept message, at most [memory] of them, the
    last one being the question; on the empty scope the question is its only
    turn. *)
Theorem prompt_within_window ch text dlg st messages st1 p st2 :
  running ch st → 1 ≤ memory ch →
  setMessage ch dlg user text st = (Ok messages, st1) →
  buildPrompt ch messages st1 = (Ok p, st2) →
  ∃ facts earlier,
    messages = earlier ++ [ {| sender := user; text := text |} ]
    ∧ Z.of_nat (length messages) ≤ memory ch
    ∧ (dlg = "" → earlier = [])
    ∧ p = systemSegment (role ch) facts +:+ turns earlier
          +:+ turn {| sender := user; text := text |} +:+ continuation.
Proof.
  intros Hrun Hm Hset Hbuild.
  destruct (buildPrompt_result _ _ _ _ _ Hbuild) as [facts ->].
  assert (∃ earlier,
            messages = earlier ++ [ {| sender := user; text := text |} ]
            ∧ Z.of_nat (length messages) ≤ memory ch
            ∧ (dlg = "" → earlier = [])) as (earlier & -> & Hlen & Hempty).
  { destruct (decide (dlg = "")) as [->|Hs].
    - rewrite setMessage_stateless in Hset. injection Hset as <- _.
      exists []. split; [done|]. split; [cbn; lia|done].
    - rewrite setMessage_scoped in Hset by done. injection Hset as <- _.
      match goal with
      | |- context [window _ (?l ++ [?m])] =>
          destruct (window_keeps_end (memory ch) (l ++ [m]) [m]) as [k Hk];
            [cbn; lia|by eexists|];
          assert (Z.of_nat (length l) ≤ memory ch) as Hold
      end.
      { apply bounded_retrievable; [lia|]. apply running_bounded; [lia|done]. }
      exists k. split; [done|]. split; [|done].
      apply window_length; [lia|]. rewrite length_app. cbn. lia. }
  exists facts, earlier. split; [done|]. split; [done|]. split; [done|].
  rewrite promptText_parts, turns_app. cbn [turns].
  by rewrite str_app_nil_r, !str_app_assoc.
Qed.

End FurtherPrompt.

Lemma prompt_within_window_witness :
  ∃ facts earlier,
    [ {| sender := user; text := "A" |};
      {| sender := assistant; text := "B" |};
      {| sender := user; text := "C" |} ]
    = earlier ++ [ {| sender := user; text := "C" |} ]
    ∧ Z.of_nat 3 ≤ memory Demo.plain
    ∧ ("room1" = "" → earlier = [])
    ∧ "<|im_start|>system" +:+ LF +:+ "AI assistant" +:+ turns
        [ {| sender := user; text := "A" |};
          {| sender := assistant; text := "B" |};
          {| sender := user; text := "C" |} ] +:+ continuation
      = systemSegment (role Demo.plain) facts +:+ turns earlier
        +:+ turn {| sender := user; text := "C" |} +:+ continuation.
Proof.
  refine (prompt_within_window Demo.plain "C" "room1" (Demo.afterA Demo.plain)
            [ {| sender := user; text := "A" |};
              {| sender := assistant; text := "B" |};
              {| sender := user; text := "C" |} ]
            (snd (setMessage Demo.plain "room1" user "C"
                    (Demo.afterA Demo.plain)))
            ("<|im_start|>system" +:+ LF +:+ "AI assistant" +:+ turns
               [ {| sender := user; text := "A" |};
                 {| sender := assistant; text := "B" |};
                 {| sender := user; text := "C" |} ] +:+ continuation)
            (snd (buildPrompt Demo.plain
                    [ {| sender := user; text := "A" |};
                      {| sender := assistant; text := "B" |};
                      {| sender := user; text := "C" |} ]
                    (snd (setMessage Demo.plain "room1" user "C"
                            (Demo.afterA Demo.plain)))))
            _ _ _ _).
  - apply (running_ask _ _ "A" "room1" noOpts (running_fresh _ _)).
  - cbn. lia.
  - vm_compute. reflexivity.
  - vm_compute. reflexivity.
Defined.
